(** * steamy: the retry wrapper and the market item-name parser

    A shallow embedding of [retry_request], [SteamMarketAPI.__init__],
    [SteamMarketAPI.get_inventory] and [SteamMarketAPI.parse_item_name] of
    [steamy/steamy.py], followed by the properties established about them.

    The module is Python 2 code ([from urllib import unquote], [filter]
    applied to a string yields a string).  Item names come out of decoded
    JSON, so they are [unicode] objects: sequences of code points.  (A
    byte string would take the same path with [lower] and [strip] acting
    on ASCII only; it is not modelled.) *)

From Stdlib Require Import List NArith ZArith Bool Lia String Ascii.
From Stdlib Require Import DecimalString.
Import ListNotations.

(** ** Python strings *)

Module PyStr.

(** A [unicode] object is the list of its code points; [ord] is the
    identity on them. *)
Definition pystr := list N.

Definition ord (c : N) : N := c.

(** [u "lit"] is the string literal [lit] (ASCII only) as a [pystr]. *)
Definition u (s : string) : pystr := map N_of_ascii (list_ascii_of_string s).

Definition eqb (a b : pystr) : bool :=
  if list_eq_dec N.eq_dec a b then true else false.

(** [s.startswith(p)] *)
Fixpoint startswith (p s : pystr) : bool :=
  match p, s with
  | [], _ => true
  | _ :: _, [] => false
  | a :: p', b :: s' => N.eqb a b && startswith p' s'
  end.

(** [p in s] *)
Fixpoint contains (p s : pystr) : bool :=
  startswith p s ||
  match s with
  | [] => false
  | _ :: s' => contains p s'
  end.

(** [s.partition(sep)] restricted to the found case: the text before and
    after the leftmost occurrence of [sep], [None] when there is none. *)
Fixpoint partition_at (sep s : pystr) : option (pystr * pystr) :=
  if startswith sep s then Some ([], skipn (List.length sep) s)
  else match s with
       | [] => None
       | c :: s' =>
           match partition_at sep s' with
           | Some (b, a) => Some (c :: b, a)
           | None => None
           end
       end.

(** [s.split(sep, n)] for a non-empty [sep] and [n >= 0]: cut at the
    leftmost occurrence, at most [n] times. *)
Fixpoint splitn (sep : pystr) (n : nat) (s : pystr) : list pystr :=
  match n with
  | O => [s]
  | S n' =>
      match partition_at sep s with
      | None => [s]
      | Some (b, a) => b :: splitn sep n' a
      end
  end.

(** [s.split(sep)]: no bound on the number of cuts.  A non-empty separator
    cuts at most [len(s)] times, see [split_complete]. *)
Definition split (sep s : pystr) : list pystr := splitn sep (List.length s) s.

(** [sep.join(l)] *)
Fixpoint join (sep : pystr) (l : list pystr) : pystr :=
  match l with
  | [] => []
  | [x] => x
  | x :: l' => x ++ sep ++ join sep l'
  end.

(** [s.replace(old, new)] for a non-empty [old]: every non-overlapping
    occurrence, leftmost first. *)
Definition replace (old new s : pystr) : pystr := join new (split old s).

(** [l[-1]] on a list of strings that is never empty here ([split] returns
    at least one piece). *)
Definition last_piece (l : list pystr) : pystr := last l [].

(** [unicode.isspace] for one code point.  [parse_item_name] strips only
    what its filter let through, code points up to 256, where the
    whitespace characters are [0x09-0x0D], [0x1C-0x20], [0x85] and [0xA0];
    whitespace above that range is not modelled. *)
Definition isspace (c : N) : bool :=
  ((9 <=? c) && (c <=? 13) || (28 <=? c) && (c <=? 32) ||
   (c =? 133) || (c =? 160))%N.

Fixpoint lstrip (s : pystr) : pystr :=
  match s with
  | [] => []
  | c :: s' => if isspace c then lstrip s' else s
  end.

Definition rstrip (s : pystr) : pystr := rev (lstrip (rev s)).

(** [s.strip()] *)
Definition strip (s : pystr) : pystr := lstrip (rstrip s).

(** [unicode.lower] for one code point.  [parse_item_name] lowers only
    what its filter let through, code points up to 256: the Latin capitals
    [A-Z], the Latin-1 capitals (all of [0xC0-0xDE] but the multiplication
    sign [0xD7]) and [0x100]; every other code point of that range is its
    own lowercase.  Code points above 257 are not modelled (left as they
    are). *)
Definition lower_char (c : N) : N :=
  (if (65 <=? c) && (c <=? 90) then c + 32
   else if (192 <=? c) && (c <=? 222) && negb (c =? 215) then c + 32
   else if c =? 256 then 257
   else c)%N.

(** [s.lower()] *)
Definition lower (s : pystr) : pystr := map lower_char s.

(** [x or None] for a string [x]: the empty string is falsy. *)
Definition or_None (s : pystr) : option pystr :=
  match s with
  | [] => None
  | _ => Some s
  end.

(** Truth value of a string. *)
Definition truthy (s : pystr) : bool :=
  match s with
  | [] => false
  | _ => true
  end.

End PyStr.
Import PyStr.

(** ** Exceptions and the result of a call *)

(** The exception classes that the modelled code can raise or catch.
    [ConnectionError], [ReadTimeout] and [HTTPError] are subclasses of
    [requests.exceptions.RequestException]; [InvalidInventoryException] is
    a subclass of [SteamAPIError]. *)
Inductive exn : Type :=
| TypeError
| ValueError
| AttributeError
| IOError
| RequestException
| ConnectionError
| ReadTimeout
| HTTPError
| SteamAPIError
| InvalidInventoryException.

(** A call either returns a value or raises. *)
Inductive outcome (A : Type) : Type :=
| Return (a : A)
| Raise (e : exn).
Arguments Return {A} a.
Arguments Raise {A} e.

Definition bind {A B} (m : outcome A) (k : A -> outcome B) : outcome B :=
  match m with
  | Return a => k a
  | Raise e => Raise e
  end.

Notation "x <- m ;; k" := (bind m (fun x => k))
  (at level 61, m at next level, right associativity).
Notation "' p <- m ;; k" := (bind m (fun x => match x with p => k end))
  (at level 61, p pattern, m at next level, right associativity).

(** [a, b = l]: tuple unpacking of a list into exactly two names raises
    [ValueError] for any other length. *)
Definition unpack2 {A} (l : list A) : outcome (A * A) :=
  match l with
  | [a; b] => Return (a, b)
  | _ => Raise ValueError
  end.

(** A method call [s.replace(args...)]: [unicode.replace] takes two
    required arguments (and an optional count, unused by this module);
    a call with fewer raises [TypeError]. *)
Definition str_replace (s : pystr) (args : list pystr) : outcome pystr :=
  match args with
  | [old; new] => Return (replace old new s)
  | _ => Raise TypeError
  end.

(** ** The item-name parser *)

(** The 6-tuple returned by [parse_item_name], field by field. *)
Record ParsedItemName : Type := mkParsed {
  category : option pystr;
  skin : option pystr;
  wear : option pystr;
  isStatTrak : bool;
  isHolographic : bool;
  isMusicKit : bool
}.

(** A record handed to the module's logger. *)
Inductive log_record : Type :=
| LogWarning (msg : pystr)
| LogException (fmt : pystr) (arg : Z).

(** [filter(lambda i: ord(i) <= 256, name)] *)
Definition strip_unicode (name : pystr) : pystr :=
  filter (fun i => (ord i <=? 256)%N) name.

(** The locals of [parse_item_name] at the end of its dispatch. *)
Record locals : Type := mkLocals {
  r_item : pystr;
  r_skin : pystr;
  r_wear : pystr;
  r_stat : bool;
  r_holo : bool;
  r_mkit : bool;
  parsed : bool
}.

(** The three-way dispatch of [parse_item_name], on the filtered name. *)
Definition dispatch (name : pystr) : outcome locals :=
  if startswith (u "Sticker") (strip name) then
    let r_item := u "sticker" in
    let r_skin := last_piece (splitn (u "|") 1 name) in
    '(r_skin, r_holo) <-
      (if contains (u "(holo)") r_skin
       then r_skin' <- str_replace r_skin [u "(holo)"] ;;
            Return (r_skin', true)
       else Return (r_skin, false)) ;;
    '(r_skin, r_wear) <-
      (if contains (u "|") r_skin
       then unpack2 (splitn (u "|") 1 r_skin)
       else Return (r_skin, [])) ;;
    Return (mkLocals r_item r_skin r_wear false r_holo false true)
  else if startswith (u "Music Kit") (strip name) then
    let r_item := u "musickit" in
    let r_skin := last_piece (splitn (u "|") 1 name) in
    Return (mkLocals r_item r_skin [] false false true false)
  else
    '(start, end_) <-
      (if contains (u "|") name
       then '(start, end_) <- unpack2 (split (u " | ") name) ;;
            Return (start, Some end_)
       else Return (name, None)) ;;
    let '(r_stat, r_item) :=
      if startswith (u "StatTrak") (strip start)
      then (true, last_piece (splitn (u " ") 2 start))
      else (false, strip start) in
    '(r_skin, r_wear) <-
      (match end_ with
       | Some e =>
           if truthy e
           then '(r_skin, ext) <- unpack2 (split (u "(") e) ;;
                Return (r_skin, replace (u ")") [] ext)
           else Return ([], [])
       | None => Return ([], [])
       end) ;;
    Return (mkLocals r_item r_skin r_wear r_stat false false true).

(** [SteamMarketAPI.parse_item_name(self, name)]: the returned tuple and
    the records logged on the way.  [self] is not read. *)
Definition parse_item_name (name : pystr)
  : outcome (ParsedItemName * list log_record) :=
  let name := strip_unicode name in
  l <- dispatch name ;;
  let logged :=
    if parsed l then []
    else [LogWarning (u "Failed to parse item name `" ++ name ++ u "`")] in
  Return (mkParsed (or_None (strip (lower (r_item l))))
                   (or_None (strip (lower (r_skin l))))
                   (or_None (strip (lower (r_wear l))))
                   (r_stat l) (r_holo l) (r_mkit l),
          logged).

(** ** Responses *)

(** Decoded JSON, numbers restricted to integers. *)
#[warnings="-register-all"]
Inductive json : Type :=
| JNull
| JBool (b : bool)
| JNumber (z : Z)
| JString (s : pystr)
| JArray (l : list json)
| JObject (m : list (pystr * json)).

(** A [requests.Response]: its status code and its body decoded as JSON,
    [None] when the body is not JSON. *)
Record response : Type := mkResponse {
  status_code : Z;
  body : option json
}.

(** [r.raise_for_status()]: [HTTPError] for a 4xx or 5xx status. *)
Definition raise_for_status (r : response) : outcome unit :=
  if ((400 <=? status_code r) && (status_code r <? 600))%Z
  then Raise HTTPError
  else Return tt.

(** Truth value of a response: [Response.ok]. *)
Definition response_ok (r : response) : bool :=
  match raise_for_status r with
  | Return _ => true
  | Raise _ => false
  end.

(** [r.json()] *)
Definition response_json (r : response) : outcome json :=
  match body r with
  | Some j => Return j
  | None => Raise ValueError
  end.

Fixpoint assoc (k : pystr) (m : list (pystr * json)) : option json :=
  match m with
  | [] => None
  | (k', v) :: m' => if PyStr.eqb k k' then Some v else assoc k m'
  end.

(** [data.get(k)]: only a dict has the method; a missing key gives [None]. *)
Definition json_get (data : json) (k : pystr) : outcome json :=
  match data with
  | JObject m =>
      match assoc k m with
      | Some v => Return v
      | None => Return JNull
      end
  | _ => Raise AttributeError
  end.

(** Truth value of a decoded JSON value. *)
Definition json_truthy (j : json) : bool :=
  match j with
  | JNull => false
  | JBool b => b
  | JNumber z => negb (z =? 0)%Z
  | JString s => truthy s
  | JArray l => match l with [] => false | _ => true end
  | JObject m => match m with [] => false | _ => true end
  end.

(** [isinstance(e, (RequestException, HTTPError))] *)
Definition is_RequestException (e : exn) : bool :=
  match e with
  | RequestException | ConnectionError | ReadTimeout | HTTPError => true
  | _ => false
  end.

(** ** The retry wrapper *)

(** The value of a keyword argument: its default when left out. *)
Definition default_arg {A} (d : A) (arg : option A) : A :=
  match arg with
  | Some a => a
  | None => d
  end.

(** What a run does to the outside, in order: calls of the action, records
    handed to the logger, sleeps. *)
Inductive event : Type :=
| EvCall
| EvLog (r : log_record)
| EvSleep (seconds : Z).

(** [time.sleep(d)]: CPython 2 on POSIX sleeps through [select], which
    rejects a negative duration ([IOError], errno 22). *)
Definition time_sleep (d : Z) : outcome event :=
  if (d <? 0)%Z then Raise IOError else Return (EvSleep d).

Definition is_call (e : event) : bool :=
  match e with EvCall => true | _ => false end.

Definition is_sleep (e : event) : bool :=
  match e with EvSleep _ => true | _ => false end.

(** Number of calls of the action, and of sleeps, in a trace. *)
Definition calls (t : list event) : nat := List.length (filter is_call t).
Definition sleeps (t : list event) : nat := List.length (filter is_sleep t).

Section Retry.

(** The state of everything outside the process: servers, network. *)
Variable world : Type.

(** The callable [f] handed to [retry_request]: applied to the
    [requests] module it performs one request, which returns a response
    or raises, and leaves the world changed. *)
Definition action : Type := world -> outcome response * world.

(** What a run leaves behind: result, trace, world. *)
Definition run (A : Type) : Type := (outcome A * list event * world)%type.

(** The world after [n] calls of [f] in a row. *)
Fixpoint after_calls (f : action) (n : nat) (w : world) : world :=
  match n with
  | O => w
  | S n' => after_calls f n' (snd (f w))
  end.

(** One pass through the [try] block: [r = f(requests)],
    [r.raise_for_status()], [return r]. *)
Definition attempt (f : action) (w : world) : outcome response * world :=
  let '(res, w') := f w in
  (r <- res ;; _ <- raise_for_status r ;; Return r, w').

Definition retry_message : pystr :=
  u "Failed to make a request in retry-mode. Sleeping %ss: ".

(** The [for _ in range(count)] loop with [n] iterations left, and the
    [return None] after it. *)
Fixpoint retry_loop (f : action) (delay : Z) (n : nat) (w : world)
  : run (option response) :=
  match n with
  | O => (Return None, [], w)
  | S n' =>
      match attempt f w with
      | (Return r, w1) => (Return (Some r), [EvCall], w1)
      | (Raise e, w1) =>
          if is_RequestException e then
            let logged := EvLog (LogException retry_message delay) in
            match time_sleep delay with
            | Raise e' => (Raise e', [EvCall; logged], w1)
            | Return slept =>
                let '(res, t, w2) := retry_loop f delay n' w1 in
                (res, EvCall :: logged :: slept :: t, w2)
            end
          else (Raise e, [EvCall], w1)
      end
  end.

(** [retry_request(f, count=1, delay=60)]; an argument left out is
    [None].  [range(count)] is empty for a [count] below 1. *)
Definition retry_request (f : action) (count delay : option Z) (w : world)
  : run (option response) :=
  let count := default_arg 1%Z count in
  let delay := default_arg 60%Z delay in
  retry_loop f delay (Z.to_nat count) w.

(** *** The market-scoped client *)

(** The attributes set by [SteamMarketAPI.__init__]. *)
Record SteamMarketAPI : Type := mkMarket {
  appid : Z;
  key : option pystr;
  retries : Z;
  request_headers : list (pystr * pystr)
}.

(** [SteamMarketAPI(appid, key=None, retries=5)] *)
Definition SteamMarketAPI_init (appid : Z) (key : option pystr)
    (retries : option Z) : SteamMarketAPI :=
  mkMarket appid key (default_arg 5%Z retries)
    [(u "Accept-Language", u "ru,en-US;q=0.8,en;q=0.6")].

(** [INVENTORY_QUERY.format(id=.., app=.., ctx=..)], kept structured. *)
Record inventory_query : Type := mkInventoryQuery {
  query_id : Z;
  query_app : Z;
  query_ctx : Z
}.

(** [requests.get(url, timeout=.., headers=..)] *)
Variable requests_get :
  inventory_query -> Z -> list (pystr * pystr) -> action.

(** [SteamMarketAPI.get_inventory(self, steamid, context=2)] *)
Definition get_inventory (self : SteamMarketAPI) (steamid : Z)
    (context : option Z) (w : world) : run json :=
  let context := default_arg 2%Z context in
  let url := mkInventoryQuery steamid (appid self) context in
  let '(res, t, w') :=
    retry_request (requests_get url 10 (request_headers self))
                  None None w in
  (r <- res ;;
   r <- (match r with
         | Some r => if response_ok r then Return r else Raise SteamAPIError
         | None => Raise SteamAPIError
         end) ;;
   data <- response_json r ;;
   success <- json_get data (u "success") ;;
   if json_truthy success then Return data
   else Raise InvalidInventoryException,
   t, w').

End Retry.

Arguments after_calls {world} f n w.
Arguments attempt {world} f w.
Arguments retry_loop {world} f delay n w.
Arguments retry_request {world} f count delay w.
Arguments get_inventory {world} requests_get self steamid context w.

(** ** The other requests of the market client *)

(** [ITEM_PRICE_QUERY.format(name=.., appid=..)], kept structured. *)
Record item_price_query : Type := mkItemPriceQuery {
  price_appid : Z;
  price_name : pystr
}.

(** The dict that [get_item_price] returns for a request that failed:
    [{'volume': 0, 'lowest_price': 0.0, 'median_price': 0.0}].  The two
    float zeros are written as the number 0, [json] having integers only. *)
Definition zero_price : json :=
  JObject [(u "volume", JNumber 0); (u "lowest_price", JNumber 0);
           (u "median_price", JNumber 0)].

Section Market.

Variable world : Type.

(** [requests.get(url, headers=..)] *)
Variable requests_get_price :
  item_price_query -> list (pystr * pystr) -> action world.

(** [SteamMarketAPI.get_item_price(self, item_name)] *)
Definition get_item_price (self : SteamMarketAPI) (item_name : pystr)
    (w : world) : run world json :=
  let url := mkItemPriceQuery (appid self) item_name in
  let '(res, t, w') :=
    retry_request (requests_get_price url (request_headers self))
                  None None w in
  (r <- res ;;
   match r with
   | Some r => if response_ok r then response_json r else Return zero_price
   | None => Return zero_price
   end,
   t, w').

End Market.

Arguments get_item_price {world} requests_get_price self item_name w.

(** ** Query strings *)

(** A value handed to a [%s] conversion: a string or an integer. *)
Inductive pyvalue : Type :=
| VStr (s : pystr)
| VInt (z : Z).

(** ['%s' % v] *)
Definition percent_s (v : pyvalue) : pystr :=
  match v with
  | VStr s => s
  | VInt z => u (NilZero.string_of_int (Z.to_int z))
  end.

(** ['%s=%s' % i] for an item [i] of [kwargs.items()]. *)
Definition format_item (i : pystr * pyvalue) : pystr :=
  fst i ++ u "=" ++ percent_s (snd i).

(** [format_query_string] of its keyword arguments, given as the list
    that [kwargs.items()] returns. *)
Definition format_query_string (kwargs : list (pystr * pyvalue)) : pystr :=
  u "?" ++ join (u "&") (map format_item kwargs).

(** ** The rows of a market listing *)

(** One entry of the list that [list_items] returns: the dict with the
    keys ['url'] and ['orig_name']. *)
Record listed_item : Type := mkListedItem {
  item_url : option pystr;
  item_orig_name : pystr
}.

(** [l[:count]]: a negative [count] counts from the end. *)
Definition slice_to {A} (count : Z) (l : list A) : list A :=
  if (count <? 0)%Z
  then firstn (List.length l - Z.to_nat (- count)) l
  else firstn (Z.to_nat count) l.

Section ListItems.

(** [unquote(s).decode('utf-8')], of [urllib]: percent-decoding, then
    decoding of the bytes, which raises on malformed UTF-8. *)
Variable unquote_decode : pystr -> outcome pystr.

(** The local function [_get_original_name(url)] of [list_items]; [url] is
    what [link.attrib.get('href')] returned, [None] for a link without the
    attribute. *)
Definition _get_original_name (url : option pystr) : outcome pystr :=
  match url with
  | None => Raise AttributeError
  | Some url =>
      let latest_path_part := last_piece (split (u "/") url) in
      let orig_name_without_querystring :=
        hd [] (splitn (u "?") 1 latest_path_part) in
      unquote_decode orig_name_without_querystring
  end.

(** The [for link in links] loop of [list_items], on the [href] attributes
    of the links left by the slice. *)
Fixpoint list_items_loop (links : list (option pystr))
  : outcome (list listed_item) :=
  match links with
  | [] => Return []
  | href :: links' =>
      orig_name <- _get_original_name href ;;
      items_list <- list_items_loop links' ;;
      Return (mkListedItem href orig_name :: items_list)
  end.

(** [list_items] from [links = pq('.market_listing_row_link')[:count]] on;
    [hrefs] are the [href] attributes of the elements the document query
    selected, in document order. *)
Definition list_items_links (count : Z) (hrefs : list (option pystr))
  : outcome (list listed_item) :=
  list_items_loop (slice_to count hrefs).

End ListItems.

(** ** Vocabulary of the statements *)

(** The sticker case applies. *)
Definition is_sticker (name : pystr) : bool :=
  startswith (u "Sticker") (strip name).

(** The Music Kit case applies. *)
Definition is_music_kit (name : pystr) : bool :=
  negb (is_sticker name) && startswith (u "Music Kit") (strip name).

(** Everything after the first pipe, the whole name when it has none. *)
Definition remainder (name : pystr) : pystr :=
  last_piece (splitn (u "|") 1 name).

(** Number of occurrences of a character. *)
Definition count_char (c : N) (s : pystr) : nat := count_occ N.eq_dec s c.

Definition pipe : N := 124.
Definition space : N := 32.
Definition lparen : N := 40.

(** The names on which [parse_item_name] returns: Music Kit
    names, sticker names without the holo marker, and names of the general
    case that have no pipe or are cut by [" | "] into exactly two pieces,
    the second one empty or with exactly one opening parenthesis. *)
Definition well_formed (name : pystr) : bool :=
  if is_sticker name then negb (contains (u "(holo)") (remainder name))
  else if is_music_kit name then true
  else negb (contains (u "|") name) ||
       match split (u " | ") name with
       | [_; e] => negb (truthy e) || (count_char lparen e =? 1)%nat
       | _ => false
       end.

(** A returned field is absent, or non-empty and equal to its lowercased
    and to its stripped form. *)
Definition normal_field (f : option pystr) : Prop :=
  match f with
  | None => True
  | Some y => y <> [] /\ lower y = y /\ strip y = y
  end.

(** At most one of three flags is set. *)
Definition at_most_one (a b c : bool) : Prop :=
  (Nat.b2n a + Nat.b2n b + Nat.b2n c <= 1)%nat.

(** The spec's reading of the StatTrak category: the whitespace-delimited
    tokens of [start] after the first two, joined by single spaces
    (what [' '.join(start.split()[2:])] computes). *)
Fixpoint tokens_from (cur : pystr) (s : pystr) : list pystr :=
  match s with
  | [] => match cur with [] => [] | _ => [rev cur] end
  | c :: s' =>
      if isspace c
      then match cur with
           | [] => tokens_from [] s'
           | _ => rev cur :: tokens_from [] s'
           end
      else tokens_from (c :: cur) s'
  end.

Definition spec_drop_two_tokens (start : pystr) : pystr :=
  join [space] (skipn 2 (tokens_from [] start)).

(** The trade mark sign that follows ["StatTrak"] in item names, U+2122. *)
Definition trade_mark : N := 8482.

(** The names of the spec's examples. *)
Definition stattrak_desert_eagle : pystr :=
  u "StatTrak" ++ [trade_mark] ++ u " Desert Eagle | Blaze (Factory New)".
Definition stattrak_ak47 : pystr :=
  u "StatTrak" ++ [trade_mark] ++ u " AK-47 | Redline (Field-Tested)".
Definition sticker_crown_foil : pystr := u "Sticker | Crown (Foil)".
Definition sticker_howling_dawn : pystr := u "Sticker | Howling Dawn (holo)".
Definition ak47_redline_bare : pystr := u "AK-47 | Redline".
Definition music_kit_bob_rockets : pystr := u "Music Kit | Bob, Rockets".

(** The black star that leads the names of knives, U+2605. *)
Definition black_star : N := 9733.

(** The Desert Eagle of the spec's example without the StatTrak marker,
    and a StatTrak knife, whose name starts with the star. *)
Definition desert_eagle_blaze : pystr :=
  u "Desert Eagle | Blaze (Factory New)".
Definition star_stattrak_butterfly_knife : pystr :=
  [black_star] ++ u " StatTrak" ++ [trade_mark] ++
  u " Butterfly Knife | Fade (Factory New)".

(** An attempt fails when the action raises a [RequestException] or
    returns a response with a 4xx or 5xx status. *)
Definition failure (o : outcome response) : Prop :=
  match o with
  | Raise e => is_RequestException e = true
  | Return r => (400 <= status_code r < 600)%Z
  end.

(** An attempt succeeds with [r] when the action returns [r] and its
    status is neither 4xx nor 5xx. *)
Definition success (o : outcome response) (r : response) : Prop :=
  o = Return r /\ ~ (400 <= status_code r < 600)%Z.

(** The [n]-th call of [f] from the world [w], counted from 0. *)
Definition nth_call {world} (f : action world) (w : world) (n : nat)
  : outcome response :=
  fst (f (after_calls f n w)).

(** A delay that [time.sleep] accepts. *)
Definition valid_delay (delay : option Z) : Prop :=
  (0 <= default_arg 60 delay)%Z.

(** What one failed attempt leaves in the trace. *)
Definition failed_attempt (delay : Z) : list event :=
  [EvCall; EvLog (LogException retry_message delay); EvSleep delay].

(** A server that is down; the world counts the requests sent. *)
Definition always_failing : action nat :=
  fun w => (Raise ConnectionError, S w).

(** A server that answers as scripted, one entry per request, and is down
    once the script is over. *)
Definition scripted : action (list (outcome response)) :=
  fun w =>
    match w with
    | [] => (Raise ConnectionError, [])
    | o :: w' => (o, w')
    end.

Definition ok_response : response := mkResponse 200 (Some (JObject [])).
Definition server_error : response := mkResponse 503 None.

(** The market client for app 730 with every default. *)
Definition market_730 : SteamMarketAPI := SteamMarketAPI_init 730 None None.

(** What a run returned or raised, its trace, and the world it left. *)
Definition run_result {world A} (r : run world A) : outcome A := fst (fst r).
Definition run_trace {world A} (r : run world A) : list event := snd (fst r).
Definition run_world {world A} (r : run world A) : world := snd r.

(** [x.lower().strip() or None], the form in which a field is returned. *)
Definition normalise (s : pystr) : option pystr := or_None (strip (lower s)).

(** A string without the occurrences of a character. *)
Definition drop_char (c : N) (s : pystr) : pystr :=
  filter (fun x => negb (x =? c)%N) s.

Definition rparen : N := 41.
Definition ampersand : N := 38.
Definition slash : N := 47.
Definition question_mark : N := 63.

(** The warning that [parse_item_name] logs for the filtered [name]. *)
Definition parse_warning (name : pystr) : log_record :=
  LogWarning (u "Failed to parse item name `" ++ name ++ u "`").

(** An inventory that decodes to an object with a true ["success"]. *)
Definition inventory_ok : response :=
  mkResponse 200 (Some (JObject [(u "success", JBool true)])).

(** A server that answers every request with the same response. *)
Definition always_answering (r : response) : action nat :=
  fun w => (Return r, S w).

(** A server whose handler is broken on our side: the call raises
    [TypeError], which is no [RequestException]. *)
Definition always_crashing : action nat :=
  fun w => (Raise TypeError, S w).

(** Percent-decoding left out: the text as it stands. *)
Definition no_decoding (s : pystr) : outcome pystr := Return s.

(** A string that is empty or starts with a non-whitespace character. *)
Definition nonspace_head (s : pystr) : Prop :=
  match s with
  | [] => True
  | c :: _ => isspace c = false
  end.

(** * Properties *)

(** ** Facts about the string operations *)

Module PyStrFacts.

Lemma startswith_app (p s : pystr) : startswith p (p ++ s) = true.
Proof.
  induction p as [|a p IH]; simpl; [reflexivity|].
  now rewrite N.eqb_refl, IH.
Qed.

Lemma startswith_skipn (p s : pystr) :
  startswith p s = true -> s = p ++ skipn (List.length p) s.
Proof.
  revert s; induction p as [|a p IH]; intros [|b s] H; simpl in *;
    try reflexivity; try discriminate.
  apply andb_prop in H as [Hab Hp].
  apply N.eqb_eq in Hab; subst b.
  f_equal; now apply IH.
Qed.

Lemma startswith_nil_r (p : pystr) : p <> [] -> startswith p [] = false.
Proof. destruct p; [congruence | reflexivity]. Qed.

(** The pieces returned by [partition_at] rebuild the string. *)
Lemma partition_at_app (sep s b a : pystr) :
  partition_at sep s = Some (b, a) -> s = b ++ sep ++ a.
Proof.
  revert b a; induction s as [|c s IH]; intros b a; simpl.
  - destruct (startswith sep []) eqn:E; [|discriminate].
    intros [= <- <-]. now apply startswith_skipn in E.
  - destruct (startswith sep (c :: s)) eqn:E.
    + intros [= <- <-]. now apply startswith_skipn in E.
    + destruct (partition_at sep s) as [[b' a']|]; [|discriminate].
      intros [= <- <-]. simpl. f_equal. now apply IH.
Qed.

(** [partition_at] finds an occurrence exactly when [in] does. *)
Lemma partition_at_contains (sep s : pystr) :
  contains sep s = true <-> exists b a, partition_at sep s = Some (b, a).
Proof.
  induction s as [|c s IH]; simpl.
  - rewrite orb_false_r. destruct (startswith sep []); split; eauto;
      try discriminate; intros (b & a & H); discriminate.
  - destruct (startswith sep (c :: s)); simpl; [split; eauto|].
    rewrite IH. destruct (partition_at sep s) as [[b a]|]; split; eauto;
      intros (b' & a' & H); discriminate.
Qed.

Lemma partition_at_none (sep s : pystr) :
  contains sep s = false <-> partition_at sep s = None.
Proof.
  pose proof (partition_at_contains sep s) as H.
  destruct (contains sep s), (partition_at sep s) as [[b a]|]; split;
    try reflexivity; try discriminate; intros _; exfalso.
  - destruct (proj1 H eq_refl) as (? & ? & ?); discriminate.
  - assert (false = true) by (apply H; eauto). discriminate.
Qed.

(** Cutting at a non-empty separator leaves a shorter rest. *)
Lemma partition_at_shorter (sep s b a : pystr) :
  sep <> [] -> partition_at sep s = Some (b, a) ->
  (List.length a < List.length s)%nat.
Proof.
  intros Hsep H. apply partition_at_app in H. subst s.
  rewrite !length_app. destruct sep; [congruence|simpl; lia].
Qed.

(** [splitn] needs no more fuel than the length of the string. *)
Lemma splitn_enough (sep : pystr) (n m : nat) (s : pystr) :
  sep <> [] -> (List.length s <= n)%nat -> (List.length s <= m)%nat ->
  splitn sep n s = splitn sep m s.
Proof.
  intros Hsep. revert m s; induction n as [|n IH]; intros m s Hn Hm.
  - destruct s; [|simpl in Hn; lia].
    destruct m; simpl; [reflexivity|].
    rewrite startswith_nil_r by assumption. reflexivity.
  - destruct m as [|m].
    + destruct s; [|simpl in Hm; lia]. simpl.
      rewrite startswith_nil_r by assumption. reflexivity.
    + simpl. destruct (partition_at sep s) as [[b a]|] eqn:E; [|reflexivity].
      apply partition_at_shorter in E; [|assumption].
      f_equal. apply IH; lia.
Qed.

(** [split] cuts at every occurrence: nothing is left in the last piece. *)
Lemma splitn_complete (sep : pystr) (n : nat) (s : pystr) :
  sep <> [] -> (List.length s <= n)%nat ->
  contains sep (last_piece (splitn sep n s)) = false.
Proof.
  intros Hsep. revert s; induction n as [|n IH]; intros s Hn.
  - destruct s; [|simpl in Hn; lia]. simpl.
    rewrite startswith_nil_r by assumption. reflexivity.
  - simpl. destruct (partition_at sep s) as [[b a]|] eqn:E.
    + pose proof (partition_at_shorter sep s b a Hsep E) as Hlt.
      specialize (IH a ltac:(lia)).
      unfold last_piece in *. simpl.
      destruct (splitn sep n a) eqn:E2; [|exact IH].
      destruct n; simpl in E2; [discriminate|].
      destruct (partition_at sep a) as [[? ?]|]; discriminate.
    + now apply partition_at_none.
Qed.

Lemma split_complete (sep s : pystr) :
  sep <> [] -> contains sep (last_piece (split sep s)) = false.
Proof. intros H. apply splitn_complete; [assumption | lia]. Qed.

(** At most one cut: two pieces when the separator occurs. *)
Lemma splitn_1_contains (sep s : pystr) :
  contains sep s = true ->
  exists b a, splitn sep 1 s = [b; a] /\ s = b ++ sep ++ a.
Proof.
  intros H. apply partition_at_contains in H as (b & a & H).
  exists b, a. simpl. rewrite H. split; [reflexivity|].
  now apply partition_at_app.
Qed.

Lemma splitn_1_absent (sep s : pystr) :
  contains sep s = false -> splitn sep 1 s = [s].
Proof. intros H. apply partition_at_none in H. simpl. now rewrite H. Qed.

(** The leftmost occurrence of a one-character separator. *)
Lemma partition_at_char (c : N) (b a : pystr) :
  ~ In c b -> partition_at [c] (b ++ c :: a) = Some (b, a).
Proof.
  induction b as [|x b IH]; intros Hb; simpl.
  - now rewrite N.eqb_refl.
  - destruct (N.eqb_spec c x) as [->|Hne].
    + exfalso. apply Hb. now left.
    + simpl. fold (partition_at [c] (b ++ c :: a)).
      rewrite IH; [reflexivity|]. intros Hin. apply Hb. now right.
Qed.

Lemma partition_at_char_none (c : N) (s : pystr) :
  ~ In c s -> partition_at [c] s = None.
Proof.
  induction s as [|x s IH]; intros Hs; simpl; [reflexivity|].
  destruct (N.eqb_spec c x) as [->|Hne].
  - exfalso. apply Hs. now left.
  - simpl. fold (partition_at [c] s).
    rewrite IH; [reflexivity|]. intros Hin. apply Hs. now right.
Qed.

(** *** One-character separators *)

Lemma partition_at_char_inv (c : N) (s b a : pystr) :
  partition_at [c] s = Some (b, a) -> s = b ++ c :: a /\ ~ In c b.
Proof.
  revert b a; induction s as [|x s IH]; intros b a; simpl; [discriminate|].
  destruct (N.eqb_spec c x) as [->|Hne]; simpl.
  - intros [= <- <-]. split; [reflexivity | intros []].
  - fold (partition_at [c] s).
    destruct (partition_at [c] s) as [[b' a']|]; [|discriminate].
    intros [= <- <-]. destruct (IH b' a' eq_refl) as [-> Hb].
    split; [reflexivity|]. intros [Hx|Hin]; [congruence | tauto].
Qed.

Lemma partition_at_char_none_inv (c : N) (s : pystr) :
  partition_at [c] s = None -> ~ In c s.
Proof.
  induction s as [|x s IH]; simpl; [tauto|].
  destruct (N.eqb_spec c x) as [->|Hne]; simpl; [discriminate|].
  fold (partition_at [c] s).
  destruct (partition_at [c] s) as [[b' a']|]; [discriminate|].
  intros _ [Hx|Hin]; [congruence | now apply IH].
Qed.

Lemma count_char_bound (c : N) (s : pystr) :
  (count_char c s <= List.length s)%nat.
Proof.
  unfold count_char. induction s as [|x s IH]; simpl; [lia|].
  destruct (N.eq_dec x c); lia.
Qed.

Lemma count_char_cut (c : N) (b a : pystr) :
  ~ In c b -> count_char c (b ++ c :: a) = S (count_char c a).
Proof.
  intros Hb. unfold count_char. rewrite count_occ_app.
  apply (count_occ_not_In N.eq_dec) in Hb. rewrite Hb. simpl.
  destruct (N.eq_dec c c); [reflexivity | congruence].
Qed.

(** A one-character separator cuts once per occurrence. *)
Lemma splitn_char_length (c : N) (n : nat) (s : pystr) :
  (count_char c s <= n)%nat ->
  List.length (splitn [c] n s) = S (count_char c s).
Proof.
  revert s; induction n as [|n IH]; intros s Hn; simpl.
  - f_equal. lia.
  - destruct (partition_at [c] s) as [[b a]|] eqn:E.
    + apply partition_at_char_inv in E as [-> Hb].
      rewrite count_char_cut in * by assumption.
      simpl. f_equal. apply IH. lia.
    + apply partition_at_char_none_inv in E.
      apply (count_occ_not_In N.eq_dec) in E.
      unfold count_char. now rewrite E.
Qed.

Lemma split_char_length (c : N) (s : pystr) :
  List.length (split [c] s) = S (count_char c s).
Proof. apply splitn_char_length, count_char_bound. Qed.

Lemma unpack2_length {A} (l : list A) :
  (exists a b, unpack2 l = Return (a, b)) <-> List.length l = 2%nat.
Proof.
  destruct l as [|a [|b [|c l]]]; simpl; split;
    try discriminate; try (intros (? & ? & ?); discriminate); eauto.
Qed.

Lemma unpack2_raise {A} (l : list A) (e : exn) :
  unpack2 l = Raise e -> e = ValueError /\ List.length l <> 2%nat.
Proof.
  destruct l as [|a [|b [|c l]]]; simpl; try discriminate;
    intros [= <-]; split; (reflexivity || discriminate).
Qed.

(** *** Stripping and lowering *)

Lemma lstrip_head (s : pystr) : nonspace_head (lstrip s).
Proof.
  induction s as [|c s IH]; simpl; [exact I|].
  destruct (isspace c) eqn:E; [exact IH | exact E].
Qed.

Lemma lstrip_fix (s : pystr) : nonspace_head s -> lstrip s = s.
Proof. destruct s as [|c s]; simpl; [reflexivity|]. now intros ->. Qed.

Lemma lstrip_idem (s : pystr) : lstrip (lstrip s) = lstrip s.
Proof. apply lstrip_fix, lstrip_head. Qed.

(** [lstrip] drops a prefix made of whitespace. *)
Lemma lstrip_suffix (s : pystr) :
  exists pre, s = pre ++ lstrip s /\ Forall (fun c => isspace c = true) pre.
Proof.
  induction s as [|c s (pre & Hs & Hpre)]; simpl.
  - exists []. split; [reflexivity | constructor].
  - destruct (isspace c) eqn:E.
    + exists (c :: pre). split; [simpl; congruence | now constructor].
    + exists []. split; [reflexivity | constructor].
Qed.

Lemma rstrip_idem (s : pystr) : rstrip (rstrip s) = rstrip s.
Proof. unfold rstrip. now rewrite rev_involutive, lstrip_idem. Qed.

(** Stripping on the left does not expose whitespace on the right. *)
Lemma rstrip_lstrip (x : pystr) :
  rstrip x = x -> rstrip (lstrip x) = lstrip x.
Proof.
  intros Hx.
  assert (Hrev : lstrip (rev x) = rev x).
  { unfold rstrip in Hx. apply (f_equal (@rev N)) in Hx.
    now rewrite rev_involutive in Hx. }
  destruct (lstrip_suffix x) as (pre & Hsplit & _).
  pose proof (lstrip_head (rev x)) as Hhead. rewrite Hrev in Hhead.
  destruct (lstrip x) as [|c t] eqn:Ey; [reflexivity|].
  unfold rstrip. rewrite lstrip_fix; [apply rev_involutive|].
  rewrite Hsplit, rev_app_distr in Hhead.
  destruct (rev (c :: t)) as [|d r] eqn:Er; [exact I | exact Hhead].
Qed.

Lemma strip_idem (s : pystr) : strip (strip s) = strip s.
Proof.
  unfold strip.
  rewrite (rstrip_lstrip (rstrip s)) by apply rstrip_idem.
  apply lstrip_idem.
Qed.

Lemma lstrip_Forall (P : N -> Prop) (s : pystr) :
  Forall P s -> Forall P (lstrip s).
Proof.
  induction 1 as [|c s Hc Hs IH]; simpl; [constructor|].
  destruct (isspace c); [exact IH | now constructor].
Qed.

Lemma strip_Forall (P : N -> Prop) (s : pystr) :
  Forall P s -> Forall P (strip s).
Proof.
  intros H. unfold strip, rstrip.
  now apply lstrip_Forall, Forall_rev, lstrip_Forall, Forall_rev.
Qed.

(** Lowering twice changes nothing more. *)
Lemma lower_char_idem (c : N) : lower_char (lower_char c) = lower_char c.
Proof.
  unfold lower_char.
  repeat match goal with
         | |- context [(?a <=? c)%N] => destruct (N.leb_spec a c); simpl
         | |- context [(c <=? ?b)%N] => destruct (N.leb_spec c b); simpl
         | |- context [(c =? ?b)%N] => destruct (N.eqb_spec c b); simpl
         end;
  repeat match goal with
         | |- context [(?a <=? ?b)%N] => destruct (N.leb_spec a b); simpl
         | |- context [(?a =? ?b)%N] => destruct (N.eqb_spec a b); simpl
         end; try reflexivity; lia.
Qed.

Lemma lower_fix (s : pystr) :
  Forall (fun c => lower_char c = c) s -> lower s = s.
Proof. induction 1 as [|c s Hc Hs IH]; simpl; congruence. Qed.

Lemma lower_Forall (s : pystr) : Forall (fun c => lower_char c = c) (lower s).
Proof.
  induction s as [|c s IH]; simpl; constructor;
    [apply lower_char_idem | exact IH].
Qed.

(** What [x.lower().strip() or None] returns, when not [None], is
    non-empty, lowercase and stripped. *)
Lemma normalised (x y : pystr) :
  or_None (strip (lower x)) = Some y ->
  y <> [] /\ lower y = y /\ strip y = y.
Proof.
  unfold or_None. destruct (strip (lower x)) as [|c t] eqn:E; [discriminate|].
  intros [= <-]. rewrite <- E. repeat split.
  - rewrite E. discriminate.
  - apply lower_fix, strip_Forall, lower_Forall.
  - apply strip_idem.
Qed.

Lemma lstrip_app (x y : pystr) :
  lstrip x <> [] -> lstrip (x ++ y) = lstrip x ++ y.
Proof.
  induction x as [|c x IH]; simpl; [congruence|].
  destruct (isspace c); [exact IH | reflexivity].
Qed.

Lemma lstrip_app_suffix (a b : pystr) :
  exists pre, lstrip (a ++ b) = pre ++ lstrip b.
Proof.
  induction a as [|c a IH]; simpl; [now exists []|].
  destruct (isspace c); [exact IH|].
  destruct (lstrip_suffix b) as (sp & Hb & _).
  exists (c :: a ++ sp). simpl. rewrite <- app_assoc. now rewrite <- Hb.
Qed.

Lemma rstrip_app_prefix (s t : pystr) :
  exists z, rstrip (s ++ t) = rstrip s ++ z.
Proof.
  unfold rstrip. rewrite rev_app_distr.
  destruct (lstrip_app_suffix (rev t) (rev s)) as (pre & ->).
  rewrite rev_app_distr. now exists (rev pre).
Qed.

Lemma startswith_app_r (p x z : pystr) :
  startswith p x = true -> startswith p (x ++ z) = true.
Proof.
  revert x; induction p as [|a p IH]; intros [|b x]; simpl;
    try reflexivity; try discriminate.
  intros H. apply andb_prop in H as [-> H]. simpl. now apply IH.
Qed.

(** What a stripped string starts with is not changed by appending. *)
Lemma startswith_strip_app (p s t : pystr) :
  p <> [] -> startswith p (strip s) = true ->
  startswith p (strip (s ++ t)) = true.
Proof.
  intros Hp H.
  assert (Hne : strip s <> []).
  { intros E. rewrite E, startswith_nil_r in H by assumption. discriminate. }
  unfold strip in *. destruct (rstrip_app_prefix s t) as (z & ->).
  rewrite lstrip_app by assumption. now apply startswith_app_r.
Qed.

Lemma contains_startswith (p s : pystr) :
  startswith p s = true -> contains p s = true.
Proof. intros H. destruct s; simpl; now rewrite H. Qed.

Lemma contains_app (p a b : pystr) : contains p (a ++ p ++ b) = true.
Proof.
  induction a as [|c a IH].
  - change ([] ++ p ++ b) with (p ++ b).
    apply contains_startswith, startswith_app.
  - cbn [app contains]. rewrite IH. apply orb_true_r.
Qed.

Lemma contains_char (c : N) (s : pystr) :
  contains [c] s = false <-> ~ In c s.
Proof.
  rewrite partition_at_none. split.
  - apply partition_at_char_none_inv.
  - apply partition_at_char_none.
Qed.

(** *** The separators of the general case *)

(** The leftmost [" | "] after a text without pipe. *)
Lemma partition_at_spaced_pipe (start e : pystr) :
  ~ In pipe start ->
  partition_at (u " | ") (start ++ u " | " ++ e) = Some (start, e).
Proof.
  change (u " | ") with [space; pipe; space].
  induction start as [|x start IH]; intros Hpipe.
  - reflexivity.
  - assert (Hhead : startswith [space; pipe; space]
                      ((x :: start) ++ [space; pipe; space] ++ e) = false).
    { destruct start as [|y start]; cbn [app startswith].
      - destruct (space =? x)%N; reflexivity.
      - destruct (N.eqb_spec pipe y) as [<-|_].
        + exfalso. apply Hpipe. right; now left.
        + destruct (space =? x)%N; reflexivity. }
    change (partition_at [space; pipe; space]
              ((x :: start) ++ [space; pipe; space] ++ e))
      with (if startswith [space; pipe; space]
                 ((x :: start) ++ [space; pipe; space] ++ e)
            then Some ([], skipn 3 ((x :: start) ++ [space; pipe; space] ++ e))
            else match partition_at [space; pipe; space]
                         (start ++ [space; pipe; space] ++ e) with
                 | Some (b, a) => Some (x :: b, a)
                 | None => None
                 end).
    rewrite Hhead, IH; [reflexivity|].
    intros Hin. apply Hpipe. now right.
Qed.

Lemma splitn_space_3 (t1 t2 rest : pystr) :
  ~ In space t1 -> ~ In space t2 ->
  splitn [space] 2 (t1 ++ space :: t2 ++ space :: rest) = [t1; t2; rest].
Proof.
  intros H1 H2. cbn [splitn].
  now rewrite (partition_at_char space t1 _ H1),
              (partition_at_char space t2 _ H2).
Qed.

Lemma splitn_space_2 (t1 t2 : pystr) :
  ~ In space t1 -> ~ In space t2 ->
  splitn [space] 2 (t1 ++ space :: t2) = [t1; t2].
Proof.
  intros H1 H2. cbn [splitn].
  now rewrite (partition_at_char space t1 _ H1),
              (partition_at_char_none space t2 H2).
Qed.

Lemma splitn_space_1 (s : pystr) :
  ~ In space s -> splitn [space] 2 s = [s].
Proof.
  intros H. cbn [splitn]. now rewrite (partition_at_char_none space s H).
Qed.

Lemma startswith_prefix (p q x : pystr) :
  startswith (p ++ q) x = true -> startswith p x = true.
Proof.
  revert x; induction p as [|a p IH]; intros [|b x]; simpl;
    try reflexivity; try discriminate.
  intros H. apply andb_prop in H as [-> H]. simpl. now apply IH.
Qed.

(** A name that starts with ["StatTrak"] starts with neither ["Sticker"]
    nor ["Music Kit"]. *)
Lemma stattrak_prefix_exclusive (x : pystr) :
  startswith (u "StatTrak") x = true ->
  startswith (u "Sticker") x = false /\
  startswith (u "Music Kit") x = false.
Proof.
  intros H.
  apply (startswith_prefix (u "Sta") (u "tTrak")), startswith_skipn in H.
  rewrite H. split; reflexivity.
Qed.

End PyStrFacts.
Import PyStrFacts.

(** ** The item-name parser *)

(** Case analysis on the branches of [dispatch]. *)
Ltac dispatch_cases :=
  repeat (match goal with
          | |- context [bind (unpack2 ?x) _] =>
              destruct (unpack2 x) as [[? ?]|] eqn:?
          | |- context [if ?c then _ else _] => destruct c eqn:?
          | |- context [match ?e with Some _ => _ | None => _ end] =>
              destruct e eqn:?
          end; cbn [bind str_replace]).

Lemma dispatch_flags (name : pystr) (l : locals) :
  dispatch name = Return l ->
  r_holo l = false /\
  (r_mkit l = true ->
   r_stat l = false /\ r_item l = u "musickit" /\ r_wear l = []) /\
  (r_stat l = true -> r_mkit l = false).
Proof.
  unfold dispatch. dispatch_cases; try discriminate;
    intros [= <-]; cbn [r_holo r_mkit r_stat r_item r_wear];
    repeat split; discriminate.
Qed.

(** Only [dispatch] can make [parse_item_name] raise. *)
Lemma parse_item_name_inv (raw : pystr) (r : ParsedItemName)
    (logs : list log_record) :
  parse_item_name raw = Return (r, logs) ->
  exists l, dispatch (strip_unicode raw) = Return l /\
    r = mkParsed (or_None (strip (lower (r_item l))))
                 (or_None (strip (lower (r_skin l))))
                 (or_None (strip (lower (r_wear l))))
                 (r_stat l) (r_holo l) (r_mkit l).
Proof.
  unfold parse_item_name.
  destruct (dispatch (strip_unicode raw)) as [l|e]; cbn [bind];
    [|discriminate].
  intros [= <- _]. now exists l.
Qed.

Lemma dispatch_parsed (name : pystr) (l : locals) :
  dispatch name = Return l -> parsed l = negb (r_mkit l).
Proof.
  unfold dispatch. dispatch_cases; try discriminate;
    intros [= <-]; reflexivity.
Qed.

(** The warning is logged for the Music Kit names and for no other: the
    only branch that leaves [parsed] unset is theirs. *)
Lemma parse_item_name_log (raw : pystr) (r : ParsedItemName)
    (logs : list log_record) :
  parse_item_name raw = Return (r, logs) ->
  logs =
  if isMusicKit r
  then [LogWarning (u "Failed to parse item name `" ++ strip_unicode raw ++
                    u "`")]
  else [].
Proof.
  unfold parse_item_name.
  destruct (dispatch (strip_unicode raw)) as [l|e] eqn:Hd; cbn [bind];
    [|discriminate].
  intros [= <- <-]. cbn [isMusicKit].
  rewrite (dispatch_parsed _ l Hd). now destruct (r_mkit l).
Qed.

Lemma parse_item_name_returns (raw : pystr) (l : locals) :
  dispatch (strip_unicode raw) = Return l ->
  exists logs,
    parse_item_name raw =
    Return (mkParsed (or_None (strip (lower (r_item l))))
                     (or_None (strip (lower (r_skin l))))
                     (or_None (strip (lower (r_wear l))))
                     (r_stat l) (r_holo l) (r_mkit l), logs).
Proof. unfold parse_item_name. intros ->. cbn [bind]. eauto. Qed.

(** C9.  Whenever [parse_item_name] returns, each of category, skin and
    wear is either absent or a non-empty string that is its own lowercased
    form and its own stripped form; the empty string is never returned. *)
Theorem parse_item_name_fields_normalised (raw : pystr) (r : ParsedItemName)
    (logs : list log_record) :
  parse_item_name raw = Return (r, logs) ->
  normal_field (category r) /\ normal_field (skin r) /\
  normal_field (wear r).
Proof.
  intros H. apply parse_item_name_inv in H as (l & _ & ->).
  cbn [category skin wear]. unfold normal_field.
  repeat split;
    match goal with
    | |- match ?f with _ => _ end =>
        destruct f as [y|] eqn:E; [apply normalised in E; tauto | exact I]
    end.
Qed.

Lemma parse_item_name_fields_normalised_witness :
  exists r logs,
    parse_item_name stattrak_desert_eagle = Return (r, logs) /\
    normal_field (category r) /\ normal_field (skin r) /\
    normal_field (wear r).
Proof.
  eexists; eexists. split; [vm_compute; reflexivity|].
  apply (parse_item_name_fields_normalised stattrak_desert_eagle _ []).
  vm_compute; reflexivity.
Defined.

(** C10.  Whenever [parse_item_name] returns, at most one of isStatTrak,
    isHolographic and isMusicKit is set; a set isMusicKit comes with the
    category ["musickit"] and no wear, a set isHolographic with the
    category ["sticker"]. *)
Theorem parse_item_name_flags (raw : pystr) (r : ParsedItemName)
    (logs : list log_record) :
  parse_item_name raw = Return (r, logs) ->
  at_most_one (isStatTrak r) (isHolographic r) (isMusicKit r) /\
  (isMusicKit r = true ->
   category r = Some (u "musickit") /\ wear r = None) /\
  (isHolographic r = true -> category r = Some (u "sticker")).
Proof.
  intros H. apply parse_item_name_inv in H as (l & Hd & ->).
  apply dispatch_flags in Hd as (Hholo & Hmkit & Hstat).
  cbn [category wear isStatTrak isHolographic isMusicKit].
  rewrite Hholo. unfold at_most_one. repeat split.
  - destruct (r_stat l); [rewrite Hstat by reflexivity|];
      destruct (r_mkit l); simpl; lia.
  - destruct (Hmkit H) as (_ & -> & _). reflexivity.
  - destruct (Hmkit H) as (_ & _ & ->). reflexivity.
  - discriminate.
Qed.

Lemma parse_item_name_flags_witness :
  exists r logs,
    parse_item_name music_kit_bob_rockets = Return (r, logs) /\
    isMusicKit r = true /\
    at_most_one (isStatTrak r) (isHolographic r) (isMusicKit r) /\
    category r = Some (u "musickit") /\ wear r = None.
Proof.
  pose (r := mkParsed (Some (u "musickit")) (Some (u "bob, rockets")) None
                      false false true).
  assert (Hp : exists logs,
             parse_item_name music_kit_bob_rockets = Return (r, logs))
    by (eexists; vm_compute; reflexivity).
  destruct Hp as (logs & Hp).
  destruct (parse_item_name_flags music_kit_bob_rockets r logs Hp)
    as (Hone & Hmk & _).
  exists r, logs. split; [exact Hp|]. split; [reflexivity|].
  split; [exact Hone|]. exact (Hmk eq_refl).
Defined.

(** [dispatch] returns on every well-formed name. *)
Lemma dispatch_returns (name : pystr) :
  well_formed name = true -> exists l, dispatch name = Return l.
Proof.
  unfold well_formed, is_music_kit, is_sticker, remainder, dispatch.
  destruct (startswith (u "Sticker") (strip name)); cbn [negb andb].
  - intros Hholo. apply negb_true_iff in Hholo. rewrite Hholo. cbn [bind].
    destruct (contains (u "|") _) eqn:Hpipe; [|cbn [bind]; eauto].
    apply splitn_1_contains in Hpipe as (b & a & -> & _).
    cbn [unpack2 bind]. eauto.
  - destruct (startswith (u "Music Kit") (strip name)); [eauto|].
    destruct (contains (u "|") name); cbn [negb orb].
    + destruct (split (u " | ") name) as [|start [|e [|x rest]]];
        try discriminate.
      cbn [unpack2 bind]. intros He.
      destruct (truthy e); cbn [negb orb] in He.
      * apply Nat.eqb_eq in He.
        assert (Hlen : List.length (split (u "(") e) = 2%nat)
          by (change (u "(") with [lparen];
              rewrite split_char_length; congruence).
        apply unpack2_length in Hlen as (a & b & ->). cbn [bind].
        destruct (startswith (u "StatTrak") (strip start)); eauto.
      * cbn [bind]. destruct (startswith (u "StatTrak") (strip start)); eauto.
    + intros _. cbn [bind].
      destruct (startswith (u "StatTrak") (strip name)); cbn [bind]; eauto.
Qed.

(** Outside the holo stickers, [dispatch] returns on no other name. *)
Lemma dispatch_raises (name : pystr) :
  well_formed name = false ->
  (is_sticker name && contains (u "(holo)") (remainder name) = true /\
   dispatch name = Raise TypeError) \/
  (is_sticker name = false /\ dispatch name = Raise ValueError).
Proof.
  unfold well_formed, is_music_kit, is_sticker, remainder, dispatch.
  destruct (startswith (u "Sticker") (strip name)); cbn [negb andb].
  - intros Hholo. apply negb_false_iff in Hholo. rewrite Hholo.
    left. split; reflexivity.
  - destruct (startswith (u "Music Kit") (strip name)); [discriminate|].
    destruct (contains (u "|") name); cbn [negb orb]; [|discriminate].
    intros H. right. split; [reflexivity|].
    destruct (split (u " | ") name) as [|start [|e [|x rest]]];
      try reflexivity.
    cbn [unpack2 bind].
    destruct (truthy e); cbn [negb orb] in H; [|discriminate].
    apply Nat.eqb_neq in H.
    destruct (unpack2 (split (u "(") e)) as [[a b]|ex] eqn:E.
    + exfalso. apply H.
      assert (Hlen : List.length (split (u "(") e) = 2%nat)
        by (apply unpack2_length; eauto).
      change (u "(") with [lparen] in Hlen.
      rewrite split_char_length in Hlen. congruence.
    + apply unpack2_raise in E as [-> _]. cbn [bind].
      destruct (startswith (u "StatTrak") (strip start)); reflexivity.
Qed.

(** In the general case a name without a pipe has neither skin nor wear. *)
Lemma dispatch_no_pipe (name : pystr) (l : locals) :
  is_sticker name = false -> is_music_kit name = false ->
  contains (u "|") name = false ->
  dispatch name = Return l ->
  r_skin l = [] /\ r_wear l = [] /\ r_holo l = false /\ r_mkit l = false.
Proof.
  unfold is_music_kit, is_sticker, dispatch. intros -> Hmk ->.
  cbn [negb andb] in Hmk. rewrite Hmk. cbn [bind].
  destruct (startswith (u "StatTrak") (strip name)); cbn [bind];
    intros [= <-]; repeat split.
Qed.

(** Together with [dispatch_returns]: the well-formed names are exactly
    those on which the parser returns. *)
Lemma parse_item_name_raises (raw : pystr) :
  well_formed (strip_unicode raw) = false ->
  parse_item_name raw = Raise TypeError \/
  parse_item_name raw = Raise ValueError.
Proof.
  intros H. unfold parse_item_name.
  destruct (dispatch_raises _ H) as [[_ ->]|[_ ->]]; [now left | now right].
Qed.

(** C1, amended.  [parse_item_name] returns a result, and does not raise,
    on every name that is well formed once the characters above code point
    256 are dropped: a Music Kit name, a sticker name without the holo
    marker, or a general-case name that has no pipe or is cut by [" | "]
    into exactly two pieces, the second one empty or with exactly one
    opening parenthesis.  A general-case name without a pipe degrades to
    an absent skin and an absent wear. *)
Theorem parse_item_name_returns_on_well_formed (raw : pystr) :
  well_formed (strip_unicode raw) = true ->
  exists r logs,
    parse_item_name raw = Return (r, logs) /\
    (is_sticker (strip_unicode raw) = false ->
     is_music_kit (strip_unicode raw) = false ->
     contains (u "|") (strip_unicode raw) = false ->
     skin r = None /\ wear r = None /\
     isHolographic r = false /\ isMusicKit r = false).
Proof.
  intros Hwf. destruct (dispatch_returns _ Hwf) as (l & Hl).
  destruct (parse_item_name_returns raw l Hl) as (logs & Hp).
  eexists; exists logs. split; [exact Hp|].
  intros Hs Hm Hc.
  destruct (dispatch_no_pipe _ l Hs Hm Hc Hl) as (-> & -> & -> & ->).
  repeat split.
Qed.

Lemma parse_item_name_returns_on_well_formed_witness :
  well_formed (strip_unicode stattrak_ak47) = true /\
  exists r logs, parse_item_name stattrak_ak47 = Return (r, logs).
Proof.
  split; [vm_compute; reflexivity|].
  destruct (parse_item_name_returns_on_well_formed stattrak_ak47)
    as (r & logs & H & _); [vm_compute; reflexivity|].
  now exists r, logs.
Defined.

(** ["AK-47 | Redline"], a skin without its wear in parentheses, makes the
    parser raise: it does not return for every input. *)
Lemma bare_skin_name_raises :
  parse_item_name ak47_redline_bare = Raise ValueError /\
  ~ (forall s, exists r logs, parse_item_name s = Return (r, logs)).
Proof.
  split; [vm_compute; reflexivity|].
  intros H. destruct (H ak47_redline_bare) as (r & logs & Hr).
  vm_compute in Hr. discriminate.
Qed.

(** *** The StatTrak rule *)

(** In the general case, [start] is the text before [" | "], or the whole
    name when it has no pipe; a [start] that begins with ["StatTrak"]
    sets the flag and keeps the last piece of [start.split(" ", 2)]. *)
Lemma dispatch_stattrak (name start : pystr) (l : locals) :
  dispatch name = Return l ->
  ~ In pipe start ->
  name = start \/ (exists e, name = start ++ u " | " ++ e) ->
  startswith (u "StatTrak") (strip start) = true ->
  r_stat l = true /\ r_item l = last_piece (splitn [space] 2 start).
Proof.
  intros Hd Hpipe Hshape Hstat.
  assert (Hname : startswith (u "StatTrak") (strip name) = true).
  { destruct Hshape as [->|(e & ->)]; [assumption|].
    apply startswith_strip_app; [discriminate | assumption]. }
  apply stattrak_prefix_exclusive in Hname as [Hs Hm].
  revert Hd. unfold dispatch. rewrite Hs, Hm.
  destruct Hshape as [->|(e & ->)].
  - apply (contains_char pipe) in Hpipe.
    change (u "|") with [pipe]. rewrite Hpipe. cbn [bind].
    rewrite Hstat. cbn [bind]. intros [= <-]. split; reflexivity.
  - change (u "|") with [pipe].
    assert (Hin : contains [pipe] (start ++ u " | " ++ e) = true).
    { change (u " | ") with ([space] ++ [pipe] ++ [space]).
      rewrite <- !app_assoc, app_assoc. apply contains_app. }
    rewrite Hin. unfold split.
    destruct (List.length (start ++ u " | " ++ e)) as [|n] eqn:Elen.
    { rewrite !length_app in Elen. simpl in Elen. lia. }
    cbn [splitn]. rewrite partition_at_spaced_pipe by assumption.
    destruct (splitn (u " | ") n e) as [|e0 [|x rest]]; cbn [unpack2 bind];
      try discriminate.
    rewrite Hstat.
    destruct (truthy e0); cbn [bind];
      [destruct (unpack2 _) as [[a b]|]; cbn [bind]; [|discriminate]|];
      intros [= <-]; split; reflexivity.
Qed.

(** What [start.split(" ", 2)[-1]] keeps of a [start] that begins with
    ["StatTrak"] and holds no pipe: the text after the second single
    space when there are at least two, after the only space when there is
    one, the whole of [start] when there is none. *)
Lemma stattrak_category_rule (raw start : pystr) (r : ParsedItemName)
    (logs : list log_record) :
  parse_item_name raw = Return (r, logs) ->
  ~ In pipe start ->
  strip_unicode raw = start \/
  (exists e, strip_unicode raw = start ++ u " | " ++ e) ->
  startswith (u "StatTrak") (strip start) = true ->
  isStatTrak r = true /\
  (forall t1 t2 rest,
      start = t1 ++ space :: t2 ++ space :: rest ->
      ~ In space t1 -> ~ In space t2 ->
      category r = or_None (strip (lower rest))) /\
  (forall t1 t2,
      start = t1 ++ space :: t2 ->
      ~ In space t1 -> ~ In space t2 ->
      category r = or_None (strip (lower t2))) /\
  (~ In space start -> category r = or_None (strip (lower start))).
Proof.
  intros Hp Hpipe Hshape Hstat.
  apply parse_item_name_inv in Hp as (l & Hd & ->).
  destruct (dispatch_stattrak _ start l Hd Hpipe Hshape Hstat) as [Hs Hi].
  cbn [isStatTrak category]. rewrite Hi. split; [exact Hs|].
  split; [|split].
  - intros t1 t2 rest -> H1 H2. now rewrite splitn_space_3.
  - intros t1 t2 -> H1 H2. now rewrite splitn_space_2.
  - intros H. now rewrite splitn_space_1.
Qed.

Lemma not_in_literal (c : N) (s : pystr) :
  existsb (N.eqb c) s = false -> ~ In c s.
Proof.
  intros H Hin.
  assert (existsb (N.eqb c) s = true)
    by (apply existsb_exists; exists c; split;
        [assumption | apply N.eqb_refl]).
  congruence.
Qed.

(** C2.  On ["StatTrak(TM) Desert Eagle | Blaze (Factory New)"] the parser
    returns the skin ["blaze"], the wear ["factory new"] and isStatTrak
    set, but the category ["eagle"] where the claim has ["desert eagle"]:
    [start.split(" ", 2)[-1]] cuts ["StatTrak Desert Eagle"] into three
    pieces and keeps the last one only.  The code itself shows the
    category meant: the same item without the StatTrak marker gets
    ["desert eagle"], and a StatTrak knife, whose filtered star leaves a
    leading space, keeps both words of ["butterfly knife"]. *)
Theorem stattrak_desert_eagle_loses_desert :
  parse_item_name stattrak_desert_eagle =
    Return (mkParsed (Some (u "eagle")) (Some (u "blaze"))
                     (Some (u "factory new")) true false false, []) /\
  parse_item_name desert_eagle_blaze =
    Return (mkParsed (Some (u "desert eagle")) (Some (u "blaze"))
                     (Some (u "factory new")) false false false, []) /\
  parse_item_name star_stattrak_butterfly_knife =
    Return (mkParsed (Some (u "butterfly knife")) (Some (u "fade"))
                     (Some (u "factory new")) true false false, []).
Proof.
  split; [|split].
  - vm_compute; reflexivity.
  - vm_compute; reflexivity.
  - vm_compute; reflexivity.
Qed.

(** The category of the StatTrak Desert Eagle is ["eagle"], not
    ["desert eagle"]; and the category of a StatTrak AK-47 is ["ak-47"]
    although dropping two whitespace-delimited tokens of its [start]
    leaves nothing. *)
Lemma stattrak_desert_eagle_category_is_eagle :
  (exists r logs,
      parse_item_name stattrak_desert_eagle = Return (r, logs) /\
      category r = Some (u "eagle") /\
      category r <> Some (u "desert eagle")) /\
  (exists r logs,
      parse_item_name stattrak_ak47 = Return (r, logs) /\
      category r = Some (u "ak-47") /\
      or_None (strip (lower (spec_drop_two_tokens (u "StatTrak AK-47"))))
        = None).
Proof.
  split; eexists; eexists; (split; [vm_compute; reflexivity|]);
    split; try reflexivity.
  cbn [category]. discriminate.
Qed.

(** *** Stickers *)

(** C3, amended.  [parse_item_name] on ["Sticker | Crown (Foil)"] returns
    the category ["sticker"], the skin ["crown (foil)"], no wear, and
    isHolographic unset: a sticker's wear is what follows a second pipe,
    parentheses are not looked at. *)
Theorem parse_item_name_sticker_crown_foil :
  parse_item_name sticker_crown_foil =
    Return (mkParsed (Some (u "sticker")) (Some (u "crown (foil)")) None
                     false false false, []).
Proof. vm_compute; reflexivity. Qed.

(** The skin of that sticker is not ["crown"] and its wear is not
    ["foil"]. *)
Lemma sticker_crown_foil_skin_keeps_parenthesis :
  exists r logs,
    parse_item_name sticker_crown_foil = Return (r, logs) /\
    skin r <> Some (u "crown") /\ wear r <> Some (u "foil").
Proof.
  eexists; eexists. split; [vm_compute; reflexivity|].
  cbn [skin wear]. split; discriminate.
Qed.

(** Every sticker name with the holo marker makes the parser raise: the
    call [r_skin.replace("(holo)")] lacks its second argument. *)
Lemma parse_item_name_holo_raises (raw : pystr) :
  is_sticker (strip_unicode raw) = true ->
  contains (u "(holo)") (remainder (strip_unicode raw)) = true ->
  parse_item_name raw = Raise TypeError.
Proof.
  unfold is_sticker, remainder, parse_item_name, dispatch.
  intros -> ->. reflexivity.
Qed.

(** C4.  ["Sticker | Howling Dawn (holo)"] is a sticker name whose
    remainder contains the holo marker; on it [parse_item_name] raises
    [TypeError] instead of returning the category ["sticker"], the skin
    ["howling dawn"], no wear and isHolographic set. *)
Theorem parse_item_name_howling_dawn_holo :
  is_sticker (strip_unicode sticker_howling_dawn) = true /\
  contains (u "(holo)") (remainder (strip_unicode sticker_howling_dawn))
    = true /\
  parse_item_name sticker_howling_dawn = Raise TypeError.
Proof. repeat split; vm_compute; reflexivity. Qed.

(** ** The retry wrapper *)

Section RetryFacts.

Variable world : Type.
Variable f : action world.

Lemma attempt_failure (w : world) :
  failure (fst (f w)) ->
  exists e, attempt f w = (Raise e, snd (f w)) /\
            is_RequestException e = true.
Proof.
  unfold attempt, failure. destruct (f w) as [[r|e] w']; cbn [fst snd bind].
  - intros H. exists HTTPError. unfold raise_for_status.
    destruct (Z.leb_spec 400 (status_code r));
      destruct (Z.ltb_spec (status_code r) 600); try lia.
    split; reflexivity.
  - intros H. now exists e.
Qed.

Lemma attempt_success (w : world) (r : response) :
  success (fst (f w)) r -> attempt f w = (Return r, snd (f w)).
Proof.
  unfold attempt, success. destruct (f w) as [o w']; cbn [fst snd].
  intros [-> H]. cbn [bind]. unfold raise_for_status.
  destruct (Z.leb_spec 400 (status_code r));
    destruct (Z.ltb_spec (status_code r) 600); try lia; reflexivity.
Qed.

Lemma time_sleep_valid (delay : Z) :
  (0 <= delay)%Z -> time_sleep delay = Return (EvSleep delay).
Proof.
  intros H. unfold time_sleep.
  destruct (Z.ltb_spec delay 0); [lia | reflexivity].
Qed.

(** A loop whose every attempt fails runs to its end. *)
Lemma retry_loop_exhausted (delay : Z) (n : nat) (w : world) :
  (0 <= delay)%Z ->
  (forall i, (i < n)%nat -> failure (nth_call f w i)) ->
  retry_loop f delay n w =
  (Return None, List.concat (repeat (failed_attempt delay) n),
   after_calls f n w).
Proof.
  intros Hd. revert w; induction n as [|n IH]; intros w Hfail;
    [reflexivity|].
  destruct (attempt_failure w (Hfail 0%nat ltac:(lia))) as (e & Ha & He).
  cbn [retry_loop]. rewrite Ha, He, (time_sleep_valid delay Hd).
  rewrite (IH (snd (f w))); [reflexivity|].
  intros i Hi. apply (Hfail (S i)). lia.
Qed.

(** A loop stops at its first successful attempt. *)
Lemma retry_loop_success (delay : Z) (k n : nat) (w : world)
    (r : response) :
  (k < n)%nat ->
  (0 <= delay)%Z \/ k = 0%nat ->
  (forall i, (i < k)%nat -> failure (nth_call f w i)) ->
  success (nth_call f w k) r ->
  retry_loop f delay n w =
  (Return (Some r), List.concat (repeat (failed_attempt delay) k) ++ [EvCall],
   after_calls f (S k) w).
Proof.
  revert n w; induction k as [|k IH]; intros n w Hn Hd Hfail Hok;
    (destruct n as [|n]; [lia|]); cbn [retry_loop].
  - now rewrite (attempt_success w r Hok).
  - destruct Hd as [Hd|]; [|discriminate].
    destruct (attempt_failure w (Hfail 0%nat ltac:(lia))) as (e & Ha & He).
    rewrite Ha, He, (time_sleep_valid delay Hd).
    rewrite (IH n (snd (f w))); [reflexivity | lia | now left | | exact Hok].
    intros i Hi. apply (Hfail (S i)). lia.
Qed.

End RetryFacts.

Lemma calls_app (t1 t2 : list event) : calls (t1 ++ t2) = (calls t1 + calls t2)%nat.
Proof. unfold calls. now rewrite filter_app, length_app. Qed.

Lemma sleeps_app (t1 t2 : list event) :
  sleeps (t1 ++ t2) = (sleeps t1 + sleeps t2)%nat.
Proof. unfold sleeps. now rewrite filter_app, length_app. Qed.

Lemma calls_failed_attempts (delay : Z) (n : nat) :
  calls (List.concat (repeat (failed_attempt delay) n)) = n.
Proof.
  induction n as [|n IH]; [reflexivity|].
  cbn [repeat List.concat]. rewrite calls_app, IH. reflexivity.
Qed.

Lemma sleeps_failed_attempts (delay : Z) (n : nat) :
  sleeps (List.concat (repeat (failed_attempt delay) n)) = n.
Proof.
  induction n as [|n IH]; [reflexivity|].
  cbn [repeat List.concat]. rewrite sleeps_app, IH. reflexivity.
Qed.

(** C6, amended.  When every attempt fails, each failed attempt, the
    last allowed one included, is followed by a log record and a sleep of
    [delay] seconds; a run with [N] attempts allowed returns [None] after
    exactly [N] sleeps. *)
Theorem retry_request_sleeps_after_every_failure (world : Type) (f : action world)
    (w : world) (N : Z) (delay : option Z) :
  (0 <= N)%Z ->
  valid_delay delay ->
  (forall i, (i < Z.to_nat N)%nat -> failure (nth_call f w i)) ->
  exists t w',
    retry_request f (Some N) delay w = (Return None, t, w') /\
    t = List.concat (repeat (failed_attempt (default_arg 60%Z delay))
                       (Z.to_nat N)) /\
    Z.of_nat (sleeps t) = N.
Proof.
  intros HN Hd Hfail. unfold retry_request. cbn [default_arg].
  rewrite (retry_loop_exhausted _ f _ _ w Hd Hfail).
  eexists; eexists. split; [reflexivity|]. split; [reflexivity|].
  rewrite sleeps_failed_attempts. lia.
Qed.

Lemma always_failing_fails (w : nat) (i : nat) :
  failure (nth_call always_failing w i).
Proof. reflexivity. Qed.

Lemma retry_request_sleeps_after_every_failure_witness :
  (0 <= 3)%Z /\ valid_delay (Some 60%Z) /\
  (forall i, (i < Z.to_nat 3)%nat ->
             failure (nth_call always_failing 0%nat i)) /\
  exists t w',
    retry_request always_failing (Some 3%Z) (Some 60%Z) 0%nat =
      (Return None, t, w') /\
    t = List.concat (repeat (failed_attempt 60) 3) /\
    Z.of_nat (sleeps t) = 3%Z.
Proof.
  split; [lia|]. split; [unfold valid_delay; simpl; lia|].
  split; [intros i _; apply always_failing_fails|].
  apply (retry_request_sleeps_after_every_failure nat always_failing 0%nat 3
           (Some 60%Z)).
  - lia.
  - unfold valid_delay; simpl; lia.
  - intros i _; apply always_failing_fails.
Defined.

(** Three attempts against a server that is down: three sleeps, not two,
    and the run ends on a sleep. *)
Lemma always_failing_sleeps_after_last_attempt :
  exists t,
    retry_request always_failing (Some 3%Z) (Some 60%Z) 0%nat =
      (Return None, t, 3%nat) /\
    sleeps t = 3%nat /\ sleeps t <> (3 - 1)%nat /\
    last t EvCall = EvSleep 60.
Proof.
  eexists. split; [vm_compute; reflexivity|].
  repeat split. vm_compute. discriminate.
Qed.

(** C7.  For every action whose every call fails and every number
    [N >= 1] of attempts allowed, [retry_request] returns [None], raises
    nothing, and has called the action exactly [N] times. *)
Theorem retry_request_gives_up (world : Type) (f : action world)
    (w : world) (N : Z) (delay : option Z) :
  (1 <= N)%Z ->
  valid_delay delay ->
  (forall i, (i < Z.to_nat N)%nat -> failure (nth_call f w i)) ->
  exists t,
    retry_request f (Some N) delay w =
      (Return None, t, after_calls f (Z.to_nat N) w) /\
    Z.of_nat (calls t) = N.
Proof.
  intros HN Hd Hfail. unfold retry_request. cbn [default_arg].
  rewrite (retry_loop_exhausted _ f _ _ w Hd Hfail).
  eexists. split; [reflexivity|].
  rewrite calls_failed_attempts. lia.
Qed.

Lemma retry_request_gives_up_witness :
  (1 <= 5)%Z /\ valid_delay None /\
  (forall i, (i < Z.to_nat 5)%nat ->
             failure (nth_call always_failing 0%nat i)) /\
  exists t,
    retry_request always_failing (Some 5%Z) None 0%nat =
      (Return None, t, 5%nat) /\
    Z.of_nat (calls t) = 5%Z.
Proof.
  split; [lia|]. split; [unfold valid_delay; simpl; lia|].
  split; [intros i _; apply always_failing_fails|].
  apply (retry_request_gives_up nat always_failing 0%nat 5 None).
  - lia.
  - unfold valid_delay; simpl; lia.
  - intros i _; apply always_failing_fails.
Defined.

(** C8.  For every action whose [k]-th call, [k] at most the number of
    attempts allowed, is the first to succeed, [retry_request] returns the
    response of that call and has called the action exactly [k] times,
    with [k - 1] sleeps; in particular an action that fails twice and
    then succeeds, with three attempts allowed, yields the successful
    response after exactly three calls, and the fourth scripted answer is
    never asked for. *)
Theorem retry_request_first_success :
  (forall (world : Type) (f : action world) (w : world) (k : nat) (N : Z)
          (delay : option Z) (r : response),
      (1 <= k)%nat -> (Z.of_nat k <= N)%Z ->
      valid_delay delay ->
      (forall i, (i < k - 1)%nat -> failure (nth_call f w i)) ->
      success (nth_call f w (k - 1)) r ->
      exists t,
        retry_request f (Some N) delay w =
          (Return (Some r), t, after_calls f k w) /\
        calls t = k /\ sleeps t = (k - 1)%nat) /\
  (exists t,
      retry_request scripted (Some 3%Z) None
        [Raise ReadTimeout; Return server_error; Return ok_response;
         Return ok_response] =
        (Return (Some ok_response), t, [Return ok_response]) /\
      calls t = 3%nat /\ sleeps t = 2%nat).
Proof.
  split.
  - intros world f w k N delay r Hk HN Hd Hfail Hok.
    unfold retry_request. cbn [default_arg].
    rewrite (retry_loop_success world f _ (k - 1) (Z.to_nat N) w r);
      [|lia | now left | assumption | assumption].
    replace (S (k - 1)) with k by lia.
    eexists. split; [reflexivity|].
    rewrite calls_app, sleeps_app, calls_failed_attempts,
      sleeps_failed_attempts.
    cbn. lia.
  - eexists. split; [vm_compute; reflexivity|]. split; reflexivity.
Qed.

Lemma retry_request_first_success_witness :
  (1 <= 3)%nat /\ (Z.of_nat 3 <= 3)%Z /\ valid_delay (Some 0%Z) /\
  (forall i, (i < 3 - 1)%nat ->
     failure (nth_call scripted
                [Raise ReadTimeout; Return server_error; Return ok_response]
                i)) /\
  success (nth_call scripted
             [Raise ReadTimeout; Return server_error; Return ok_response]
             (3 - 1)) ok_response /\
  exists t,
    retry_request scripted (Some 3%Z) (Some 0%Z)
      [Raise ReadTimeout; Return server_error; Return ok_response] =
      (Return (Some ok_response), t, []) /\
    calls t = 3%nat /\ sleeps t = (3 - 1)%nat.
Proof.
  assert (Hfail : forall i, (i < 3 - 1)%nat ->
            failure (nth_call scripted
                       [Raise ReadTimeout; Return server_error;
                        Return ok_response] i)).
  { intros [|[|i]] Hi; [reflexivity | cbn; lia | simpl in Hi; lia]. }
  assert (Hok : success (nth_call scripted
                  [Raise ReadTimeout; Return server_error; Return ok_response]
                  (3 - 1)) ok_response).
  { split; [reflexivity | cbn; lia]. }
  assert (Hd : valid_delay (Some 0%Z)) by (unfold valid_delay; simpl; lia).
  split; [lia|]. split; [lia|]. split; [exact Hd|].
  split; [exact Hfail|]. split; [exact Hok|].
  apply (proj1 retry_request_first_success _ scripted
           [Raise ReadTimeout; Return server_error; Return ok_response]
           3%nat 3%Z (Some 0%Z) ok_response);
    [lia | lia | exact Hd | exact Hfail | exact Hok].
Defined.

(** ** The market-scoped client *)

(** [get_inventory] does not read the [retries] attribute. *)
Lemma get_inventory_ignores_retries (world : Type)
    (requests_get : inventory_query -> Z -> list (pystr * pystr) ->
                    action world)
    (self : SteamMarketAPI) (n : Z) (steamid : Z) (context : option Z)
    (w : world) :
  get_inventory requests_get
    (mkMarket (appid self) (key self) n (request_headers self))
    steamid context w =
  get_inventory requests_get self steamid context w.
Proof. reflexivity. Qed.

(** Whatever [retries] says, a failed request is not repeated. *)
Lemma get_inventory_single_attempt (world : Type)
    (requests_get : inventory_query -> Z -> list (pystr * pystr) ->
                    action world)
    (self : SteamMarketAPI) (steamid : Z) (context : option Z) (w : world) :
  let f := requests_get
             (mkInventoryQuery steamid (appid self) (default_arg 2%Z context))
             10%Z (request_headers self) in
  failure (fst (f w)) ->
  get_inventory requests_get self steamid context w =
    (Raise SteamAPIError, failed_attempt 60, snd (f w)).
Proof.
  intros f Hfail. unfold get_inventory, retry_request.
  cbn [default_arg]. fold f. change (Z.to_nat 1) with 1%nat.
  rewrite (retry_loop_exhausted world f 60 1 w); [reflexivity | lia |].
  intros [|i] Hi; [exact Hfail | lia].
Qed.

(** C5.  The market client built with every default carries
    [retries = 5], yet its [get_inventory], against a server that is down,
    calls the transport once and raises [SteamAPIError]: the request goes
    through [retry_request] with its own default, one attempt. *)
Theorem get_inventory_default_attempts :
  retries market_730 = 5%Z /\
  (exists t,
      get_inventory (fun _ _ _ => always_failing) market_730
        76561197960287930 None 0%nat = (Raise SteamAPIError, t, 1%nat) /\
      calls t = 1%nat) /\
  (exists t,
      retry_request always_failing None None 0%nat =
        (Return None, t, 1%nat) /\
      calls t = 1%nat).
Proof.
  split; [reflexivity|].
  split; eexists; (split; [vm_compute; reflexivity | reflexivity]).
Qed.

(** * Further properties *)

(** ** More facts about the string operations *)

Module PyStrMore.

Lemma splitn_nonempty (sep : pystr) (n : nat) (s : pystr) :
  splitn sep n s <> [].
Proof.
  destruct n; simpl; [discriminate|].
  destruct (partition_at sep s) as [[b a]|]; discriminate.
Qed.

Lemma splitn_char_absent (c : N) (n : nat) (s : pystr) :
  ~ In c s -> splitn [c] n s = [s].
Proof.
  intros H. destruct n; simpl; [reflexivity|].
  now rewrite (partition_at_char_none c s H).
Qed.

Lemma splitn_char_cut (c : N) (n : nat) (b a : pystr) :
  ~ In c b -> splitn [c] (S n) (b ++ c :: a) = b :: splitn [c] n a.
Proof. intros H. cbn [splitn]. now rewrite (partition_at_char c b a H). Qed.

Lemma join_cons (sep x : pystr) (l : list pystr) :
  l <> [] -> join sep (x :: l) = x ++ sep ++ join sep l.
Proof. destruct l; [congruence | reflexivity]. Qed.

Lemma last_piece_cons (x : pystr) (l : list pystr) :
  l <> [] -> last_piece (x :: l) = last_piece l.
Proof. destruct l; [congruence | reflexivity]. Qed.

(** The first occurrence of a character that occurs. *)
Lemma in_split_first (c : N) (s : pystr) :
  In c s -> exists s1 s2, s = s1 ++ c :: s2 /\ ~ In c s1.
Proof.
  induction s as [|x s IH]; intros H; [destruct H|].
  destruct (N.eq_dec x c) as [->|Hne].
  - exists [], s. split; [reflexivity | intros []].
  - destruct H as [H|H]; [congruence|].
    destruct (IH H) as (s1 & s2 & -> & Hs1).
    exists (x :: s1), s2. split; [reflexivity|].
    intros [E|E]; [congruence | tauto].
Qed.

(** The last piece of a split at a character is what follows its last
    occurrence. *)
Lemma last_piece_splitn_char (c : N) (n : nat) (s t : pystr) :
  ~ In c t -> (List.length (s ++ c :: t) <= n)%nat ->
  last_piece (splitn [c] n (s ++ c :: t)) = t.
Proof.
  intros Ht. revert s; induction n as [|n IH]; intros s Hn.
  - rewrite length_app in Hn. simpl in Hn. lia.
  - destruct (in_dec N.eq_dec c s) as [Hin|Hnin].
    + destruct (in_split_first c s Hin) as (s1 & s2 & -> & Hs1).
      rewrite <- app_assoc. cbn [app].
      rewrite splitn_char_cut by assumption.
      rewrite last_piece_cons by apply splitn_nonempty.
      apply IH. rewrite !length_app in *. simpl in *. lia.
    + rewrite splitn_char_cut by assumption.
      rewrite last_piece_cons by apply splitn_nonempty.
      now rewrite splitn_char_absent.
Qed.

Lemma last_piece_split_char (c : N) (s t : pystr) :
  ~ In c t -> last_piece (split [c] (s ++ c :: t)) = t.
Proof. intros H. apply last_piece_splitn_char; [assumption | lia]. Qed.

Lemma split_char_absent (c : N) (s : pystr) : ~ In c s -> split [c] s = [s].
Proof. apply splitn_char_absent. Qed.

(** Splitting what was joined gives the pieces back. *)
Lemma splitn_join_char (c : N) (l : list pystr) (n : nat) :
  l <> [] -> Forall (fun x => ~ In c x) l ->
  (List.length (join [c] l) <= n)%nat ->
  splitn [c] n (join [c] l) = l.
Proof.
  revert n. induction l as [|x l IH]; intros n Hl Hall Hn; [congruence|].
  inversion Hall as [|x' l' Hx Hall']; subst.
  destruct l as [|y l].
  - now apply splitn_char_absent.
  - rewrite join_cons in Hn |- * by discriminate.
    change ([c] ++ join [c] (y :: l)) with (c :: join [c] (y :: l)) in *.
    rewrite length_app in Hn. cbn [List.length] in Hn.
    destruct n as [|n]; [lia|].
    rewrite splitn_char_cut by assumption. f_equal.
    apply IH; [discriminate | assumption | lia].
Qed.

Lemma split_join_char (c : N) (l : list pystr) :
  l <> [] -> Forall (fun x => ~ In c x) l -> split [c] (join [c] l) = l.
Proof. intros Hl Hall. apply splitn_join_char; [assumption.. | lia]. Qed.

(** Joining with a character adds one occurrence per gap. *)
Lemma count_char_join (c : N) (l : list pystr) :
  l <> [] ->
  S (count_char c (join [c] l)) =
  (List.length l + list_sum (map (count_char c) l))%nat.
Proof.
  intros Hl. induction l as [|x l IH]; [congruence|].
  destruct l as [|y l].
  - unfold list_sum. simpl. lia.
  - rewrite join_cons by discriminate. unfold count_char in *.
    rewrite count_occ_app. cbn [app count_occ].
    destruct (N.eq_dec c c); [|congruence].
    specialize (IH ltac:(discriminate)).
    unfold list_sum in *. cbn [map fold_right List.length] in *. lia.
Qed.

Lemma drop_char_absent (c : N) (s : pystr) : ~ In c s -> drop_char c s = s.
Proof.
  unfold drop_char. induction s as [|x s IH]; intros H; simpl; [reflexivity|].
  destruct (N.eqb_spec x c) as [->|_]; simpl.
  - exfalso. apply H. now left.
  - f_equal. apply IH. intros Hin. apply H. now right.
Qed.

(** Replacing a character by nothing drops it. *)
Lemma replace_char_nil_n (c : N) (n : nat) (s : pystr) :
  (List.length s <= n)%nat -> join [] (splitn [c] n s) = drop_char c s.
Proof.
  revert s; induction n as [|n IH]; intros s Hn.
  - destruct s; [reflexivity | simpl in Hn; lia].
  - cbn [splitn]. destruct (partition_at [c] s) as [[b a]|] eqn:E.
    + apply partition_at_char_inv in E as [-> Hb].
      rewrite join_cons by apply splitn_nonempty.
      rewrite IH by (rewrite length_app in Hn; simpl in Hn; lia).
      unfold drop_char at 2. rewrite filter_app. cbn [filter app].
      rewrite N.eqb_refl. cbn [negb].
      fold (drop_char c b). fold (drop_char c a).
      now rewrite (drop_char_absent c b Hb).
    + apply partition_at_char_none_inv in E.
      now rewrite drop_char_absent.
Qed.

Lemma replace_char_nil (c : N) (s : pystr) :
  replace [c] [] s = drop_char c s.
Proof. apply replace_char_nil_n. lia. Qed.

(** Lowering and stripping commute. *)
Lemma isspace_lower_char (c : N) : isspace (lower_char c) = isspace c.
Proof.
  unfold lower_char, isspace.
  repeat match goal with
         | |- context [(?a <=? c)%N] => destruct (N.leb_spec a c); simpl
         | |- context [(c <=? ?b)%N] => destruct (N.leb_spec c b); simpl
         | |- context [(c =? ?b)%N] => destruct (N.eqb_spec c b); simpl
         end;
  repeat match goal with
         | |- context [(?a <=? ?b)%N] => destruct (N.leb_spec a b); simpl
         | |- context [(?a =? ?b)%N] => destruct (N.eqb_spec a b); simpl
         end; try reflexivity; lia.
Qed.

Lemma lower_lstrip (s : pystr) : lower (lstrip s) = lstrip (lower s).
Proof.
  induction s as [|c s IH]; simpl; [reflexivity|].
  rewrite isspace_lower_char. destruct (isspace c); [exact IH | reflexivity].
Qed.

Lemma lower_strip (s : pystr) : lower (strip s) = strip (lower s).
Proof.
  unfold strip, rstrip, lower.
  fold (lower (lstrip (rev (lstrip (rev s))))).
  rewrite lower_lstrip. unfold lower at 1. rewrite map_rev.
  fold (lower (lstrip (rev s))). rewrite lower_lstrip.
  unfold lower at 1. now rewrite map_rev.
Qed.

(** [x.strip()] before the normalisation changes nothing. *)
Lemma normalise_strip (s : pystr) : normalise (strip s) = normalise s.
Proof. unfold normalise. now rewrite lower_strip, strip_idem. Qed.

Lemma lstrip_all_space (s : pystr) :
  Forall (fun c => isspace c = true) s -> lstrip s = [].
Proof. induction 1 as [|c s Hc Hs IH]; simpl; [reflexivity|]. now rewrite Hc. Qed.

Lemma strip_all_space (s : pystr) :
  Forall (fun c => isspace c = true) s -> strip s = [].
Proof.
  intros H. unfold strip, rstrip.
  rewrite (lstrip_all_space (rev s)) by now apply Forall_rev.
  reflexivity.
Qed.

(** The only [" | "] of a name with one. *)
Lemma split_spaced_pipe (start e : pystr) :
  ~ In pipe start -> contains (u " | ") e = false ->
  split (u " | ") (start ++ u " | " ++ e) = [start; e].
Proof.
  intros Hs He. unfold split.
  destruct (List.length (start ++ u " | " ++ e)) as [|n] eqn:Elen.
  { rewrite !length_app in Elen. simpl in Elen. lia. }
  cbn [splitn]. rewrite partition_at_spaced_pipe by assumption.
  apply partition_at_none in He.
  destruct n; cbn [splitn]; [reflexivity | now rewrite He].
Qed.

End PyStrMore.
Import PyStrMore.


(** ** The item-name parser, case by case *)

Lemma remainder_cut (a b : pystr) :
  ~ In pipe a -> remainder (a ++ pipe :: b) = b.
Proof.
  intros Ha. unfold remainder. change (u "|") with [pipe].
  now rewrite splitn_char_cut.
Qed.

Lemma remainder_whole (name : pystr) :
  ~ In pipe name -> remainder name = name.
Proof.
  intros H. unfold remainder. change (u "|") with [pipe].
  now rewrite splitn_char_absent.
Qed.

Lemma contains_char_true (c : N) (s : pystr) :
  In c s -> contains [c] s = true.
Proof.
  intros H. destruct (contains [c] s) eqn:E; [reflexivity|].
  apply contains_char in E. contradiction.
Qed.

Lemma strip_unicode_high (a b : pystr) (c : N) :
  (256 < c)%N -> strip_unicode (a ++ c :: b) = strip_unicode (a ++ b).
Proof.
  intros Hc. unfold strip_unicode, ord. rewrite !filter_app. cbn [filter].
  destruct (N.leb_spec c 256); [lia | reflexivity].
Qed.

(** X1.  A code point above 256 is invisible to the parser: with or
    without it, anywhere in the name, the result and the log are the
    same. *)
Theorem parse_item_name_ignores_high_code_points (a b : pystr) (c : N) :
  (256 < c)%N ->
  parse_item_name (a ++ c :: b) = parse_item_name (a ++ b).
Proof.
  intros Hc. unfold parse_item_name.
  now rewrite (strip_unicode_high a b c Hc).
Qed.

Lemma parse_item_name_ignores_high_code_points_witness :
  (256 < trade_mark)%N /\
  parse_item_name (u "StatTrak" ++ trade_mark :: u " AK-47 | Redline (Field-Tested)") =
  parse_item_name (u "StatTrak" ++ u " AK-47 | Redline (Field-Tested)").
Proof.
  split; [reflexivity|].
  apply (parse_item_name_ignores_high_code_points (u "StatTrak")
           (u " AK-47 | Redline (Field-Tested)") trade_mark).
  reflexivity.
Defined.

(** X2.  A Music Kit name never makes the parser raise.  It returns the
    category ["musickit"], isMusicKit set, no wear, and as skin the
    normalised text after the first pipe (the whole name when it has no
    pipe); and every such call logs the warning that the name failed to
    parse. *)
Theorem parse_item_name_music_kit (raw : pystr) :
  is_music_kit (strip_unicode raw) = true ->
  exists sk,
    parse_item_name raw =
      Return (mkParsed (Some (u "musickit")) sk None false false true,
              [parse_warning (strip_unicode raw)]) /\
    (forall a b, strip_unicode raw = a ++ pipe :: b -> ~ In pipe a ->
                 sk = normalise b) /\
    (~ In pipe (strip_unicode raw) -> sk = normalise (strip_unicode raw)).
Proof.
  unfold is_music_kit, is_sticker. intros H.
  apply andb_prop in H as [Hs Hm]. apply negb_true_iff in Hs.
  exists (normalise (remainder (strip_unicode raw))). split.
  - unfold parse_item_name, dispatch. rewrite Hs, Hm. reflexivity.
  - split.
    + intros a b -> Ha. now rewrite remainder_cut.
    + intros Hn. now rewrite remainder_whole.
Qed.

Lemma parse_item_name_music_kit_witness :
  is_music_kit (strip_unicode music_kit_bob_rockets) = true /\
  parse_item_name music_kit_bob_rockets =
    Return (mkParsed (Some (u "musickit")) (Some (u "bob, rockets")) None
                     false false true,
            [parse_warning music_kit_bob_rockets]).
Proof.
  split; [reflexivity|].
  destruct (parse_item_name_music_kit music_kit_bob_rockets eq_refl)
    as (sk & Hp & Hcut & _).
  rewrite Hp.
  rewrite (Hcut (u "Music Kit ") (u " Bob, Rockets") eq_refl
             (not_in_literal pipe (u "Music Kit ") eq_refl)).
  reflexivity.
Defined.

(** The sticker branch on a name without the holo marker. *)
Lemma parse_item_name_sticker_plain (raw : pystr) :
  is_sticker (strip_unicode raw) = true ->
  contains (u "(holo)") (remainder (strip_unicode raw)) = false ->
  parse_item_name raw =
  match (if contains [pipe] (remainder (strip_unicode raw))
         then unpack2 (splitn [pipe] 1 (remainder (strip_unicode raw)))
         else Return (remainder (strip_unicode raw), [])) with
  | Return (sk, we) =>
      Return (mkParsed (Some (u "sticker")) (normalise sk) (normalise we)
                       false false false, [])
  | Raise e => Raise e
  end.
Proof.
  unfold is_sticker, remainder, parse_item_name, dispatch.
  intros -> ->. cbn [bind]. change (u "|") with [pipe].
  destruct (if contains [pipe] _ then _ else _) as [[sk we]|e]; reflexivity.
Qed.

(** X3.  A sticker name without the holo marker returns the category
    ["sticker"] and no flag.  With one pipe the skin is the text after it
    and there is no wear; with more, the skin is the text between the
    first and the second pipe and the wear everything after the second;
    with none, the whole name is the skin. *)
Theorem parse_item_name_sticker_pipes (raw : pystr) :
  is_sticker (strip_unicode raw) = true ->
  contains (u "(holo)") (remainder (strip_unicode raw)) = false ->
  (forall a b,
      strip_unicode raw = a ++ pipe :: b -> ~ In pipe a -> ~ In pipe b ->
      parse_item_name raw =
        Return (mkParsed (Some (u "sticker")) (normalise b) None
                         false false false, [])) /\
  (forall a b c,
      strip_unicode raw = a ++ pipe :: b ++ pipe :: c ->
      ~ In pipe a -> ~ In pipe b ->
      parse_item_name raw =
        Return (mkParsed (Some (u "sticker")) (normalise b) (normalise c)
                         false false false, [])) /\
  (~ In pipe (strip_unicode raw) ->
   parse_item_name raw =
     Return (mkParsed (Some (u "sticker")) (normalise (strip_unicode raw))
                      None false false false, [])).
Proof.
  intros Hs Hh. rewrite (parse_item_name_sticker_plain raw Hs Hh).
  split; [|split].
  - intros a b E Ha Hb. rewrite E, remainder_cut by assumption.
    apply contains_char in Hb. now rewrite Hb.
  - intros a b c E Ha Hb. rewrite E, remainder_cut by assumption.
    rewrite contains_char_true by apply in_elt.
    now rewrite splitn_char_cut.
  - intros Hn. rewrite remainder_whole by assumption.
    apply contains_char in Hn. now rewrite Hn.
Qed.

Lemma parse_item_name_sticker_pipes_witness :
  is_sticker (strip_unicode (u "Sticker | Titan (Foil) | Katowice 2014"))
    = true /\
  parse_item_name (u "Sticker | Titan (Foil) | Katowice 2014") =
    Return (mkParsed (Some (u "sticker")) (Some (u "titan (foil)"))
                     (Some (u "katowice 2014")) false false false, []).
Proof.
  split; [reflexivity|].
  destruct (parse_item_name_sticker_pipes
              (u "Sticker | Titan (Foil) | Katowice 2014")
              eq_refl eq_refl) as (_ & Htwo & _).
  rewrite (Htwo (u "Sticker ") (u " Titan (Foil) ") (u " Katowice 2014")
             eq_refl (not_in_literal pipe (u "Sticker ") eq_refl)
             (not_in_literal pipe (u " Titan (Foil) ") eq_refl)).
  reflexivity.
Defined.

(** X4.  No returned result has isHolographic set: the only assignment of
    the flag sits behind the call that raises. *)
Theorem parse_item_name_never_holographic (raw : pystr)
    (r : ParsedItemName) (logs : list log_record) :
  parse_item_name raw = Return (r, logs) -> isHolographic r = false.
Proof.
  intros H. apply parse_item_name_inv in H as (l & Hd & ->).
  now apply dispatch_flags in Hd as (Hholo & _).
Qed.

Lemma parse_item_name_never_holographic_witness :
  exists r logs,
    parse_item_name sticker_crown_foil = Return (r, logs) /\
    isHolographic r = false.
Proof.
  pose (r := mkParsed (Some (u "sticker")) (Some (u "crown (foil)")) None
                      false false false).
  assert (Hp : parse_item_name sticker_crown_foil = Return (r, []))
    by reflexivity.
  exists r, []. split; [exact Hp|].
  exact (parse_item_name_never_holographic sticker_crown_foil r [] Hp).
Defined.


(** The general case on a name that is neither a sticker, nor a Music
    Kit, nor StatTrak. *)
Lemma dispatch_plain_general (name : pystr) :
  is_sticker name = false -> is_music_kit name = false ->
  dispatch name =
  '(start, end_) <-
    (if contains [pipe] name
     then '(start, end_) <- unpack2 (split (u " | ") name) ;;
          Return (start, Some end_)
     else Return (name, None)) ;;
  let '(r_stat, r_item) :=
    if startswith (u "StatTrak") (strip start)
    then (true, last_piece (splitn (u " ") 2 start))
    else (false, strip start) in
  '(r_skin, r_wear) <-
    (match end_ with
     | Some e =>
         if truthy e
         then '(r_skin, ext) <- unpack2 (split [lparen] e) ;;
              Return (r_skin, replace [rparen] [] ext)
         else Return ([], [])
     | None => Return ([], [])
     end) ;;
  Return (mkLocals r_item r_skin r_wear r_stat false false true).
Proof.
  unfold is_music_kit, is_sticker, dispatch. intros -> Hm.
  cbn [negb andb] in Hm. now rewrite Hm.
Qed.

(** X5.  A general-case name [start | skin (wear] that is not StatTrak,
    with one [" | "] and one opening parenthesis, returns the normalised
    [start] as category, the normalised text before the parenthesis as
    skin, and as wear the normalised text after it with every closing
    parenthesis dropped, wherever it stands; no flag is set and nothing
    is logged. *)
Theorem parse_item_name_weapon (raw start s w : pystr) :
  strip_unicode raw = start ++ u " | " ++ s ++ lparen :: w ->
  ~ In pipe start ->
  contains (u " | ") (s ++ lparen :: w) = false ->
  ~ In lparen s -> ~ In lparen w ->
  is_sticker (strip_unicode raw) = false ->
  is_music_kit (strip_unicode raw) = false ->
  startswith (u "StatTrak") (strip start) = false ->
  parse_item_name raw =
    Return (mkParsed (normalise start) (normalise s)
                     (normalise (drop_char rparen w)) false false false,
            []).
Proof.
  intros E Hstart Hone Hs Hw Hst Hmk Hstat.
  unfold parse_item_name.
  rewrite (dispatch_plain_general _ Hst Hmk), E.
  assert (Hin : contains [pipe] (start ++ u " | " ++ s ++ lparen :: w)
                = true).
  { apply contains_char_true. apply in_or_app. right.
    change (u " | ") with [space; pipe; space]. right. now left. }
  rewrite Hin, (split_spaced_pipe start _ Hstart Hone).
  cbn [unpack2 bind]. rewrite Hstat.
  assert (Htruthy : truthy (s ++ lparen :: w) = true)
    by (destruct s; reflexivity).
  rewrite Htruthy. unfold split at 1.
  destruct (List.length (s ++ lparen :: w)) as [|n] eqn:Elen.
  { rewrite length_app in Elen. simpl in Elen. lia. }
  rewrite splitn_char_cut, (splitn_char_absent lparen n w Hw) by assumption.
  cbn [unpack2 bind r_item r_skin r_wear r_stat r_holo r_mkit parsed].
  rewrite replace_char_nil.
  fold (normalise (strip start)). rewrite normalise_strip.
  reflexivity.
Qed.

Lemma parse_item_name_weapon_witness :
  parse_item_name (u "AK-47 | Redline (Field-Tested)") =
    Return (mkParsed (Some (u "ak-47")) (Some (u "redline"))
                     (Some (u "field-tested")) false false false, []).
Proof.
  rewrite (parse_item_name_weapon (u "AK-47 | Redline (Field-Tested)")
             (u "AK-47") (u "Redline ") (u "Field-Tested)") eq_refl
             (not_in_literal pipe (u "AK-47") eq_refl) eq_refl
             (not_in_literal lparen (u "Redline ") eq_refl)
             (not_in_literal lparen (u "Field-Tested)") eq_refl)
             eq_refl eq_refl eq_refl).
  reflexivity.
Defined.

(** The general case without a pipe and without the StatTrak marker. *)
Lemma parse_item_name_plain_name (raw : pystr) :
  ~ In pipe (strip_unicode raw) ->
  is_sticker (strip_unicode raw) = false ->
  is_music_kit (strip_unicode raw) = false ->
  startswith (u "StatTrak") (strip (strip_unicode raw)) = false ->
  parse_item_name raw =
    Return (mkParsed (normalise (strip_unicode raw)) None None
                     false false false, []).
Proof.
  intros Hpipe Hst Hmk Hstat. unfold parse_item_name.
  rewrite (dispatch_plain_general _ Hst Hmk).
  apply contains_char in Hpipe. rewrite Hpipe. cbn [bind]. rewrite Hstat.
  cbn [bind r_item r_skin r_wear r_stat r_holo r_mkit parsed].
  fold (normalise (strip (strip_unicode raw))). rewrite normalise_strip.
  reflexivity.
Qed.

(** X6.  A name without a pipe that is neither a sticker, nor a Music Kit,
    nor StatTrak returns its own normalised form as category and nothing
    else: no skin, no wear, no flag, no log record. *)
Theorem parse_item_name_no_pipe (raw : pystr) :
  ~ In pipe (strip_unicode raw) ->
  is_sticker (strip_unicode raw) = false ->
  is_music_kit (strip_unicode raw) = false ->
  startswith (u "StatTrak") (strip (strip_unicode raw)) = false ->
  parse_item_name raw =
    Return (mkParsed (normalise (strip_unicode raw)) None None
                     false false false, []).
Proof. apply parse_item_name_plain_name. Qed.

Lemma parse_item_name_no_pipe_witness :
  parse_item_name (u "  Operation Breakout Weapon Case ") =
    Return (mkParsed (Some (u "operation breakout weapon case")) None None
                     false false false, []).
Proof.
  rewrite (parse_item_name_no_pipe (u "  Operation Breakout Weapon Case ")
             (not_in_literal pipe (u "  Operation Breakout Weapon Case ")
                eq_refl) eq_refl eq_refl eq_refl).
  reflexivity.
Defined.

Lemma strip_unicode_blank (raw : pystr) :
  Forall (fun c => isspace c = true \/ (256 < c)%N) raw ->
  Forall (fun c => isspace c = true) (strip_unicode raw).
Proof.
  unfold strip_unicode, ord.
  induction 1 as [|c s Hc Hs IH]; simpl; [constructor|].
  destruct (N.leb_spec c 256); [|exact IH].
  constructor; [|exact IH]. destruct Hc; [assumption | lia].
Qed.

(** X7.  The empty name, and every name made of whitespace and of code
    points above 256 only, returns a result with every field absent and
    every flag unset, and logs nothing. *)
Theorem parse_item_name_blank (raw : pystr) :
  Forall (fun c => isspace c = true \/ (256 < c)%N) raw ->
  parse_item_name raw =
    Return (mkParsed None None None false false false, []).
Proof.
  intros H. apply strip_unicode_blank in H.
  assert (Hstrip : strip (strip_unicode raw) = [])
    by now apply strip_all_space.
  assert (Hpipe : ~ In pipe (strip_unicode raw)).
  { intros Hin. rewrite Forall_forall in H. apply H in Hin. discriminate. }
  rewrite parse_item_name_plain_name; try assumption.
  - unfold normalise. fold (lower (strip_unicode raw)).
    rewrite <- lower_strip, Hstrip. reflexivity.
  - unfold is_sticker. now rewrite Hstrip.
  - unfold is_music_kit, is_sticker. now rewrite Hstrip.
  - now rewrite Hstrip.
Qed.

Lemma parse_item_name_blank_witness :
  parse_item_name [32; 9; 9733; 160; 8482; 10]%N =
    Return (mkParsed None None None false false false, []).
Proof.
  apply (parse_item_name_blank [32; 9; 9733; 160; 8482; 10]%N).
  repeat constructor; right; reflexivity.
Defined.

(** X8.  The parser raises in two ways only.  [TypeError]: exactly on the
    sticker names whose text after the first pipe contains the holo
    marker.  [ValueError]: exactly on the names of the general case that
    contain a pipe and are not cut by [" | "] into two pieces, or whose
    second piece is not empty and has no or several opening
    parentheses. *)
Theorem parse_item_name_raises_iff (raw : pystr) (e : exn) :
  parse_item_name raw = Raise e <->
  (e = TypeError /\ is_sticker (strip_unicode raw) = true /\
   contains (u "(holo)") (remainder (strip_unicode raw)) = true) \/
  (e = ValueError /\ is_sticker (strip_unicode raw) = false /\
   is_music_kit (strip_unicode raw) = false /\
   contains (u "|") (strip_unicode raw) = true /\
   match split (u " | ") (strip_unicode raw) with
   | [_; e'] => e' <> [] /\ count_char lparen e' <> 1%nat
   | _ => True
   end).
Proof.
  set (name := strip_unicode raw).
  assert (Hwf : well_formed name = false <->
    (is_sticker name = true /\
     contains (u "(holo)") (remainder name) = true) \/
    (is_sticker name = false /\ is_music_kit name = false /\
     contains (u "|") name = true /\
     match split (u " | ") name with
     | [_; e'] => e' <> [] /\ count_char lparen e' <> 1%nat
     | _ => True
     end)).
  { unfold well_formed.
    destruct (is_sticker name); [rewrite negb_false_iff; intuition congruence|].
    destruct (is_music_kit name); [intuition congruence|].
    destruct (contains (u "|") name); cbn [negb orb]; [|intuition congruence].
    destruct (split (u " | ") name) as [|x [|e' [|y l]]];
      try (intuition congruence).
    destruct e' as [|c e']; cbn [truthy negb orb];
      [intuition congruence|].
    rewrite Nat.eqb_neq. split.
    - intros H. right. repeat split; congruence.
    - intros [[? _]|(_ & _ & _ & _ & H)]; [discriminate | exact H]. }
  assert (Hp : parse_item_name raw = bind (dispatch name)
                 (fun l => Return
                    (mkParsed (or_None (strip (lower (r_item l))))
                              (or_None (strip (lower (r_skin l))))
                              (or_None (strip (lower (r_wear l))))
                              (r_stat l) (r_holo l) (r_mkit l),
                     if parsed l then []
                     else [LogWarning (u "Failed to parse item name `" ++
                                       name ++ u "`")])))
    by reflexivity.
  rewrite Hp. clear Hp.
  destruct (well_formed name) eqn:Ewf.
  - destruct (dispatch_returns name Ewf) as (l & ->). cbn [bind]. split.
    + discriminate.
    + intros H. assert (true = false) by (apply Hwf; tauto). discriminate.
  - destruct (dispatch_raises name Ewf) as [[Hc ->]|[Hs ->]]; cbn [bind].
    + apply andb_prop in Hc as [Hs Hh]. split.
      * intros [= <-]. now left.
      * intros [(-> & _)|(_ & Hs' & _)]; [reflexivity | congruence].
    + split.
      * intros [= <-]. right. split; [reflexivity|].
        destruct (proj1 Hwf eq_refl) as [[Hs' _]|H]; [congruence | exact H].
      * intros [(_ & Hs' & _)|(-> & _)]; [congruence | reflexivity].
Qed.


(** ** The retry wrapper, for every action *)

Section RetryInvariants.

Variable world : Type.
Variable f : action world.

Lemma attempt_world (w : world) : snd (attempt f w) = snd (f w).
Proof. unfold attempt. now destruct (f w). Qed.

Lemma attempt_return_inv (w w1 : world) (r : response) :
  attempt f w = (Return r, w1) ->
  fst (f w) = Return r /\ response_ok r = true /\ w1 = snd (f w).
Proof.
  unfold attempt, response_ok. destruct (f w) as [[r'|e] w'];
    cbn [bind fst snd]; [|discriminate].
  destruct (raise_for_status r') as [[]|e] eqn:Er; cbn [bind];
    [|discriminate].
  intros [= <- <-]. rewrite Er. repeat split.
Qed.

Lemma attempt_raise_inv (w w1 : world) (e : exn) :
  attempt f w = (Raise e, w1) ->
  w1 = snd (f w) /\
  (fst (f w) = Raise e \/
   (e = HTTPError /\ exists r, fst (f w) = Return r /\
                               (400 <= status_code r < 600)%Z)).
Proof.
  unfold attempt. destruct (f w) as [[r|e'] w']; cbn [bind fst snd].
  - unfold raise_for_status.
    destruct (Z.leb_spec 400 (status_code r));
      destruct (Z.ltb_spec (status_code r) 600); cbn [andb bind];
      try discriminate.
    intros [= <- <-]. split; [reflexivity|]. right.
    split; [reflexivity|]. exists r. split; [reflexivity | lia].
  - intros [= <- <-]. split; [reflexivity | now left].
Qed.

Lemma attempt_raise (w : world) (e : exn) :
  fst (f w) = Raise e -> attempt f w = (Raise e, snd (f w)).
Proof.
  unfold attempt. destruct (f w) as [o w']; cbn [fst snd].
  now intros ->.
Qed.

Lemma time_sleep_inv (delay : Z) (ev : event) :
  time_sleep delay = Return ev -> ev = EvSleep delay.
Proof.
  unfold time_sleep. destruct (delay <? 0)%Z; [discriminate|].
  now intros [= <-].
Qed.

(** The trace and the world of a loop, whatever the action does. *)
Lemma retry_loop_invariant (delay : Z) (n : nat) (w : world) :
  let r := retry_loop f delay n w in
  (calls (run_trace r) <= n)%nat /\
  (0 < n -> 0 < calls (run_trace r))%nat /\
  (sleeps (run_trace r) < calls (run_trace r) \/
   run_result r = Return None /\
   sleeps (run_trace r) = calls (run_trace r))%nat /\
  run_world r = after_calls f (calls (run_trace r)) w.
Proof.
  revert w; induction n as [|n IH]; intros w; cbv zeta.
  - cbn. repeat split; try lia. right. split; reflexivity.
  - cbn [retry_loop].
    destruct (attempt f w) as [[r|e] w1] eqn:Ea.
    + pose proof (attempt_world w) as Hw. rewrite Ea in Hw. cbn in Hw.
      subst w1. cbn. repeat split; lia.
    + pose proof (attempt_world w) as Hw. rewrite Ea in Hw. cbn in Hw.
      subst w1.
      destruct (is_RequestException e);
        [|cbn; repeat split; lia].
      destruct (time_sleep delay) as [ev|e'] eqn:Es;
        [|cbn; repeat split; lia].
      apply time_sleep_inv in Es. subst ev.
      specialize (IH (snd (f w))). cbv zeta in IH.
      destruct (retry_loop f delay n (snd (f w))) as [[res t] w2].
      unfold run_trace, run_world, run_result, calls, sleeps in *.
      cbn [fst snd filter is_call is_sleep List.length after_calls] in *.
      destruct IH as (Hc & Hpos & Hs & Hw).
      repeat split; try lia; [|exact Hw].
      destruct Hs as [Hs|[Hr Hs]]; [left; lia | right; split; [exact Hr|lia]].
Qed.

(** What a loop that returned a response went through. *)
Lemma retry_loop_some_inv (delay : Z) (n : nat) (w w' : world)
    (r : response) (t : list event) :
  retry_loop f delay n w = (Return (Some r), t, w') ->
  response_ok r = true /\
  exists k, calls t = S k /\ sleeps t = k /\ nth_call f w k = Return r /\
            forall i, (i < k)%nat -> failure (nth_call f w i).
Proof.
  revert w t; induction n as [|n IH]; intros w t; [discriminate|].
  cbn [retry_loop].
  destruct (attempt f w) as [[r1|e] w1] eqn:Ea.
  - intros [= <- <- <-].
    apply attempt_return_inv in Ea as (Hf & Hok & _).
    split; [exact Hok|]. exists 0%nat. repeat split; [exact Hf|].
    intros i Hi. lia.
  - destruct (is_RequestException e) eqn:He; [|discriminate].
    destruct (time_sleep delay) as [ev|e'] eqn:Es; [|discriminate].
    apply time_sleep_inv in Es. subst ev.
    apply attempt_raise_inv in Ea as (-> & Hcause).
    destruct (retry_loop f delay n (snd (f w))) as [[res t1] w2] eqn:El.
    intros [= -> <- <-].
    destruct (IH _ _ El) as (Hok & k & Hc & Hs & Hk & Hfail).
    split; [exact Hok|]. exists (S k).
    unfold calls, sleeps in *.
    cbn [filter is_call is_sleep List.length].
    repeat split; try lia; [exact Hk|].
    intros [|i] Hi; [|apply Hfail; lia].
    unfold nth_call, failure. cbn [after_calls].
    destruct Hcause as [->|(-> & r2 & -> & Hst)]; [exact He | exact Hst].
Qed.

(** What a loop that returned [None] went through. *)
Lemma retry_loop_none_inv (delay : Z) (n : nat) (w w' : world)
    (t : list event) :
  retry_loop f delay n w = (Return None, t, w') ->
  t = List.concat (repeat (failed_attempt delay) n) /\
  forall i, (i < n)%nat -> failure (nth_call f w i).
Proof.
  revert w t; induction n as [|n IH]; intros w t.
  - intros [= <- _]. split; [reflexivity|]. intros i Hi. lia.
  - cbn [retry_loop].
    destruct (attempt f w) as [[r1|e] w1] eqn:Ea; [discriminate|].
    destruct (is_RequestException e) eqn:He; [|discriminate].
    destruct (time_sleep delay) as [ev|e'] eqn:Es; [|discriminate].
    apply time_sleep_inv in Es. subst ev.
    apply attempt_raise_inv in Ea as (-> & Hcause).
    destruct (retry_loop f delay n (snd (f w))) as [[res t1] w2] eqn:El.
    intros [= -> <- <-].
    destruct (IH _ _ El) as (-> & Hfail).
    split; [reflexivity|].
    intros [|i] Hi; [|apply Hfail; lia].
    unfold nth_call, failure. cbn [after_calls].
    destruct Hcause as [->|(-> & r2 & -> & Hst)]; [exact He | exact Hst].
Qed.

(** A loop stops at the first exception that is no [RequestException]. *)
Lemma retry_loop_raise (delay : Z) (k n : nat) (w : world) (e : exn) :
  (k < n)%nat ->
  (0 <= delay)%Z \/ k = 0%nat ->
  (forall i, (i < k)%nat -> failure (nth_call f w i)) ->
  nth_call f w k = Raise e -> is_RequestException e = false ->
  retry_loop f delay n w =
  (Raise e, List.concat (repeat (failed_attempt delay) k) ++ [EvCall],
   after_calls f (S k) w).
Proof.
  revert n w; induction k as [|k IH]; intros n w Hn Hd Hfail He Hne;
    (destruct n as [|n]; [lia|]); cbn [retry_loop].
  - rewrite (attempt_raise w e He), Hne. reflexivity.
  - destruct Hd as [Hd|]; [|discriminate].
    destruct (attempt_failure world f w (Hfail 0%nat ltac:(lia)))
      as (e0 & Ha & He0).
    rewrite Ha, He0, (time_sleep_valid delay Hd).
    rewrite (IH n (snd (f w))); [reflexivity | lia | now left | | exact He
                                | exact Hne].
    intros i Hi. apply (Hfail (S i)). lia.
Qed.

End RetryInvariants.

(** X9.  Whatever the action does and however the run ends,
    [retry_request] calls the action at most [count] times (never for a
    [count] below 1, at least once otherwise), sleeps at most once per
    call, and leaves the world that exactly that many calls in a row
    produce. *)
Theorem retry_request_bounds (world : Type) (f : action world)
    (count delay : option Z) (w : world) :
  let r := retry_request f count delay w in
  (calls (run_trace r) <= Z.to_nat (default_arg 1%Z count))%nat /\
  ((default_arg 1 count < 1)%Z <-> calls (run_trace r) = 0%nat) /\
  (sleeps (run_trace r) <= calls (run_trace r))%nat /\
  run_world r = after_calls f (calls (run_trace r)) w.
Proof.
  cbv zeta. unfold retry_request.
  pose proof (retry_loop_invariant world f (default_arg 60%Z delay)
                (Z.to_nat (default_arg 1%Z count)) w) as H.
  cbv zeta in H. destruct H as (Hc & Hpos & Hs & Hw).
  repeat split; try assumption; try lia.
Qed.

(** X10.  A response that [retry_request] returns has passed
    [raise_for_status]: it is never a 4xx or 5xx response.  It is the
    answer to the last call made, every call before it failed, and each
    of those failures was followed by one sleep. *)
Theorem retry_request_returns_ok (world : Type) (f : action world)
    (count delay : option Z) (w w' : world) (r : response)
    (t : list event) :
  retry_request f count delay w = (Return (Some r), t, w') ->
  response_ok r = true /\
  exists k, calls t = S k /\ sleeps t = k /\
            nth_call f w k = Return r /\
            forall i, (i < k)%nat -> failure (nth_call f w i).
Proof. unfold retry_request. apply retry_loop_some_inv. Qed.

Lemma retry_request_returns_ok_witness :
  exists t w',
    retry_request scripted (Some 3%Z) (Some 0%Z)
      [Return server_error; Return ok_response] =
      (Return (Some ok_response), t, w') /\
    response_ok ok_response = true /\ calls t = 2%nat /\ sleeps t = 1%nat.
Proof.
  pose (t := failed_attempt 0 ++ [EvCall]).
  assert (Hrun : retry_request scripted (Some 3%Z) (Some 0%Z)
                   [Return server_error; Return ok_response] =
                 (Return (Some ok_response), t, [])) by reflexivity.
  destruct (retry_request_returns_ok _ scripted _ _ _ _ _ _ Hrun)
    as (Hok & _).
  exists t, []. split; [exact Hrun|]. split; [exact Hok|].
  split; reflexivity.
Defined.

(** X11.  [retry_request] returns [None] only when it ran out of
    attempts: every one of the [N] calls allowed was made and failed, and
    each was followed by a log record and a sleep. *)
Theorem retry_request_none_only_when_exhausted (world : Type)
    (f : action world) (N : Z) (delay : option Z) (w w' : world)
    (t : list event) :
  retry_request f (Some N) delay w = (Return None, t, w') ->
  (forall i, (i < Z.to_nat N)%nat -> failure (nth_call f w i)) /\
  calls t = Z.to_nat N /\ sleeps t = Z.to_nat N /\
  w' = after_calls f (Z.to_nat N) w.
Proof.
  intros H. unfold retry_request in H. cbn [default_arg] in H.
  pose proof (retry_loop_invariant world f (default_arg 60%Z delay)
                (Z.to_nat N) w) as Hb.
  cbv zeta in Hb. rewrite H in Hb. destruct Hb as (_ & _ & _ & Hw).
  unfold run_world, run_trace in Hw. cbn [fst snd] in Hw.
  destruct (retry_loop_none_inv world f _ _ _ _ _ H) as (-> & Hfail).
  rewrite calls_failed_attempts in *. rewrite sleeps_failed_attempts.
  repeat split; assumption.
Qed.


Lemma retry_request_none_only_when_exhausted_witness :
  exists t,
    retry_request always_failing (Some 2%Z) None 0%nat =
      (Return None, t, 2%nat) /\
    (forall i, (i < Z.to_nat 2)%nat ->
               failure (nth_call always_failing 0%nat i)) /\
    calls t = 2%nat /\ sleeps t = 2%nat.
Proof.
  pose (t := failed_attempt 60 ++ failed_attempt 60).
  assert (Hrun : retry_request always_failing (Some 2%Z) None 0%nat =
                 (Return None, t, 2%nat)) by reflexivity.
  destruct (retry_request_none_only_when_exhausted _ always_failing _ _ _
              _ _ Hrun) as (Hfail & Hc & Hs & _).
  exists t. split; [exact Hrun|]. split; [exact Hfail|].
  split; [exact Hc | exact Hs].
Defined.

(** X12.  An exception of the action that is no [RequestException] is not
    retried: it leaves [retry_request] at once, with no log record and no
    sleep after the call that raised it, whatever attempts remain. *)
Theorem retry_request_propagates (world : Type) (f : action world)
    (w : world) (k : nat) (N : Z) (delay : option Z) (e : exn) :
  (1 <= k)%nat -> (Z.of_nat k <= N)%Z ->
  valid_delay delay ->
  (forall i, (i < k - 1)%nat -> failure (nth_call f w i)) ->
  nth_call f w (k - 1) = Raise e ->
  is_RequestException e = false ->
  retry_request f (Some N) delay w =
    (Raise e,
     List.concat (repeat (failed_attempt (default_arg 60%Z delay)) (k - 1))
       ++ [EvCall],
     after_calls f k w).
Proof.
  intros Hk HN Hd Hfail He Hne. unfold retry_request. cbn [default_arg].
  rewrite (retry_loop_raise world f _ (k - 1) (Z.to_nat N) w e);
    [|lia | now left | assumption | assumption | assumption].
  now replace (S (k - 1)) with k by lia.
Qed.

Lemma retry_request_propagates_witness :
  retry_request always_crashing (Some 5%Z) None 0%nat =
    (Raise TypeError, [EvCall], 1%nat).
Proof.
  apply (retry_request_propagates nat always_crashing 0%nat 1 5 None
           TypeError).
  - lia.
  - lia.
  - unfold valid_delay; simpl; lia.
  - intros i Hi. simpl in Hi. lia.
  - reflexivity.
  - reflexivity.
Defined.

(** ** The market-scoped client, for every server *)

Section MarketFacts.

Variable world : Type.
Variable requests_get :
  inventory_query -> Z -> list (pystr * pystr) -> action world.
Variable requests_get_price :
  item_price_query -> list (pystr * pystr) -> action world.

Lemma retry_once (f : action world) (w : world) :
  retry_request f None None w =
  match attempt f w with
  | (Return r, w1) => (Return (Some r), [EvCall], w1)
  | (Raise e, w1) =>
      if is_RequestException e
      then (Return None, failed_attempt 60, w1)
      else (Raise e, [EvCall], w1)
  end.
Proof.
  unfold retry_request. cbn [default_arg].
  change (Z.to_nat 1) with 1%nat. cbn [retry_loop].
  destruct (attempt f w) as [[r|e] w1]; [reflexivity|].
  destruct (is_RequestException e); reflexivity.
Qed.

(** X13.  [get_inventory] sends exactly one request, whatever the server
    answers and however the call ends: the [retries] attribute plays no
    part, and the world is left as that one request left it. *)
Theorem get_inventory_one_request (self : SteamMarketAPI) (steamid : Z)
    (context : option Z) (w : world) :
  let f := requests_get
             (mkInventoryQuery steamid (appid self)
                               (default_arg 2%Z context))
             10%Z (request_headers self) in
  let r := get_inventory requests_get self steamid context w in
  calls (run_trace r) = 1%nat /\ run_world r = snd (f w).
Proof.
  cbv zeta. unfold get_inventory. rewrite retry_once.
  rewrite <- (attempt_world world).
  destruct (attempt _ w) as [[r|e] w1]; [split; reflexivity|].
  destruct (is_RequestException e); split; reflexivity.
Qed.

(** X14.  What [get_inventory] returns is the body of an answer that was
    no 4xx or 5xx response, decoded to an object whose ["success"] entry
    is present and true; an inventory marked unsuccessful is never
    returned. *)
Theorem get_inventory_returns_successful (self : SteamMarketAPI)
    (steamid : Z) (context : option Z) (w w' : world) (data : json)
    (t : list event) :
  get_inventory requests_get self steamid context w = (Return data, t, w') ->
  exists r m v,
    fst (requests_get
           (mkInventoryQuery steamid (appid self)
                             (default_arg 2%Z context))
           10%Z (request_headers self) w) = Return r /\
    response_ok r = true /\ body r = Some data /\ data = JObject m /\
    assoc (u "success") m = Some v /\ json_truthy v = true /\
    t = [EvCall].
Proof.
  unfold get_inventory. rewrite retry_once.
  destruct (attempt _ w) as [[r|e] w1] eqn:Ea.
  - apply attempt_return_inv in Ea as (Hf & Hok & _).
    cbn [bind]. rewrite Hok. cbn [bind]. unfold response_json.
    destruct (body r) as [j|] eqn:Eb; cbn [bind]; [|discriminate].
    destruct j as [| | | | |m]; cbn [json_get bind]; try discriminate.
    destruct (assoc (u "success") m) as [v|] eqn:Em; cbn [bind];
      [|discriminate].
    destruct (json_truthy v) eqn:Ev; [|discriminate].
    intros [= <- <- <-]. exists r, m, v. repeat split; assumption.
  - destruct (is_RequestException e); cbn [bind]; discriminate.
Qed.

(** X16.  [get_item_price] does not raise when its request fails: after
    the one attempt, the log record and the sleep of 60 seconds, it
    returns the record of zeros.  An answer that is no 4xx or 5xx response
    gives its decoded body back, whatever that body holds. *)
Theorem get_item_price_failure_is_zero (self : SteamMarketAPI)
    (item_name : pystr) (w : world) :
  let f := requests_get_price (mkItemPriceQuery (appid self) item_name)
             (request_headers self) in
  (failure (fst (f w)) ->
   get_item_price requests_get_price self item_name w =
     (Return zero_price, failed_attempt 60, snd (f w))) /\
  (forall r j, success (fst (f w)) r -> body r = Some j ->
     get_item_price requests_get_price self item_name w =
       (Return j, [EvCall], snd (f w))).
Proof.
  cbv zeta. unfold get_item_price. rewrite retry_once. split.
  - intros Hfail.
    destruct (attempt_failure world _ w Hfail) as (e & -> & ->).
    reflexivity.
  - intros r j Hok Hbody.
    rewrite (attempt_success world _ w r Hok). cbn [bind].
    assert (Hr : response_ok r = true).
    { destruct Hok as [_ Hst]. unfold response_ok, raise_for_status.
      destruct (Z.leb_spec 400 (status_code r));
        destruct (Z.ltb_spec (status_code r) 600); try reflexivity; lia. }
    rewrite Hr. unfold response_json. now rewrite Hbody.
Qed.

End MarketFacts.

Lemma get_inventory_returns_successful_witness :
  exists data t w',
    get_inventory (fun _ _ _ => always_answering inventory_ok) market_730
      76561197960287930 None 0%nat = (Return data, t, w') /\
    exists m v, data = JObject m /\ assoc (u "success") m = Some v /\
                json_truthy v = true.
Proof.
  pose (data := JObject [(u "success", JBool true)]).
  assert (Hrun : get_inventory (fun _ _ _ => always_answering inventory_ok)
                   market_730 76561197960287930 None 0%nat =
                 (Return data, [EvCall], 1%nat)) by reflexivity.
  destruct (get_inventory_returns_successful nat _ _ _ _ _ _ _ _ Hrun)
    as (r & m & v & _ & _ & _ & Hd & Hm & Hv & _).
  exists data, [EvCall], 1%nat. split; [exact Hrun|].
  exists m, v. split; [exact Hd|]. split; [exact Hm | exact Hv].
Defined.

Lemma get_item_price_failure_is_zero_witness :
  failure (fst (always_failing 0%nat)) /\
  get_item_price (fun _ _ => always_failing) market_730
    (u "AK-47 | Redline (Field-Tested)") 0%nat =
    (Return zero_price, failed_attempt 60, 1%nat).
Proof.
  split; [reflexivity|].
  apply (proj1 (get_item_price_failure_is_zero nat
                  (fun _ _ => always_failing) market_730
                  (u "AK-47 | Redline (Field-Tested)") 0%nat)).
  reflexivity.
Defined.

(** ** Query strings *)

(** X17.  As long as no key and no rendered value contains [&], the text
    that follows the question mark splits at [&] into the [key=value]
    fields of the arguments, one per argument and in the order in which
    [kwargs.items()] yields them; with no argument at all the result is
    the question mark alone, and what follows it splits into a single
    empty field. *)
Theorem format_query_string_fields (kwargs : list (pystr * pyvalue)) :
  Forall (fun i => ~ In ampersand (format_item i)) kwargs ->
  exists q,
    format_query_string kwargs = question_mark :: q /\
    (kwargs <> [] -> split [ampersand] q = map format_item kwargs) /\
    (kwargs = [] -> q = [] /\ split [ampersand] q = [[]]).
Proof.
  intros Hall. exists (join [ampersand] (map format_item kwargs)).
  split; [reflexivity|]. split.
  - intros Hne. apply split_join_char.
    + destruct kwargs; [congruence | discriminate].
    + now apply Forall_map.
  - intros ->. split; reflexivity.
Qed.

Lemma format_query_string_fields_witness :
  exists q,
    format_query_string [(u "query", VStr (u "redline"));
                         (u "appid", VInt 730)] = question_mark :: q /\
    split [ampersand] q = [u "query=redline"; u "appid=730"].
Proof.
  destruct (format_query_string_fields
              [(u "query", VStr (u "redline")); (u "appid", VInt 730)])
    as (q & Hq & Hfields & _).
  - repeat constructor; apply not_in_literal; reflexivity.
  - exists q. split; [exact Hq|]. apply Hfields. discriminate.
Defined.

(** X18.  Nothing is escaped: the number of [&]-separated fields of the
    text that follows the question mark is the number of arguments (one,
    the empty field, when there is no argument) plus the number of [&]
    that the keys and rendered values contain, so a value with an [&] is
    read back as more than one field. *)
Theorem format_query_string_unescaped (kwargs : list (pystr * pyvalue)) :
  exists q,
    format_query_string kwargs = question_mark :: q /\
    List.length (split [ampersand] q) =
    (Nat.max 1 (List.length kwargs) +
     list_sum (map (fun i => count_char ampersand (format_item i))
                   kwargs))%nat.
Proof.
  exists (join [ampersand] (map format_item kwargs)).
  split; [reflexivity|].
  destruct kwargs as [|i kwargs]; [reflexivity|].
  rewrite split_char_length, count_char_join by discriminate.
  rewrite length_map, map_map. cbn [List.length]. lia.
Qed.

Lemma format_query_string_unescaped_witness :
  exists q,
    format_query_string [(u "query", VStr (u "m4&appid=570"));
                         (u "appid", VInt 730)] = question_mark :: q /\
    List.length (split [ampersand] q) = 3%nat.
Proof.
  destruct (format_query_string_unescaped
              [(u "query", VStr (u "m4&appid=570")); (u "appid", VInt 730)])
    as (q & Hq & Hlen).
  exists q. split; [exact Hq|]. rewrite Hlen. reflexivity.
Defined.


Section InventoryErrors.

Variable world : Type.
Variable requests_get :
  inventory_query -> Z -> list (pystr * pystr) -> action world.

Lemma success_response_ok (o : outcome response) (r : response) :
  success o r -> response_ok r = true.
Proof.
  intros [_ Hst]. unfold response_ok, raise_for_status.
  destruct (Z.leb_spec 400 (status_code r));
    destruct (Z.ltb_spec (status_code r) 600); try reflexivity; lia.
Qed.

(** X15.  The exception [get_inventory] raises tells what went wrong with
    its one request: [SteamAPIError] when the request failed;
    [ValueError] when the answer is not JSON; [AttributeError] when it is
    JSON but no object; [InvalidInventoryException] when it is an object
    whose ["success"] entry is missing or false. *)
Theorem get_inventory_errors (self : SteamMarketAPI) (steamid : Z)
    (context : option Z) (w : world) :
  let f := requests_get
             (mkInventoryQuery steamid (appid self)
                               (default_arg 2%Z context))
             10%Z (request_headers self) in
  let result :=
    run_result (get_inventory requests_get self steamid context w) in
  (failure (fst (f w)) -> result = Raise SteamAPIError) /\
  (forall r, success (fst (f w)) r -> body r = None ->
             result = Raise ValueError) /\
  (forall r j, success (fst (f w)) r -> body r = Some j ->
               (forall m, j <> JObject m) ->
               result = Raise AttributeError) /\
  (forall r m, success (fst (f w)) r -> body r = Some (JObject m) ->
               match assoc (u "success") m with
               | Some v => json_truthy v = false
               | None => True
               end ->
               result = Raise InvalidInventoryException).
Proof.
  cbv zeta. unfold get_inventory, run_result. rewrite retry_once.
  split; [|split; [|split]].
  - intros Hfail.
    destruct (attempt_failure world _ w Hfail) as (e & -> & ->).
    reflexivity.
  - intros r Hok Hbody.
    rewrite (attempt_success world _ w r Hok). cbn [bind fst].
    rewrite (success_response_ok _ r Hok). cbn [bind].
    unfold response_json. now rewrite Hbody.
  - intros r j Hok Hbody Hj.
    rewrite (attempt_success world _ w r Hok). cbn [bind fst].
    rewrite (success_response_ok _ r Hok). cbn [bind].
    unfold response_json. rewrite Hbody. cbn [bind].
    destruct j; try reflexivity. exfalso. now apply (Hj m).
  - intros r m Hok Hbody Hs.
    rewrite (attempt_success world _ w r Hok). cbn [bind fst].
    rewrite (success_response_ok _ r Hok). cbn [bind].
    unfold response_json. rewrite Hbody. cbn [bind json_get].
    destruct (assoc (u "success") m) as [v|]; cbn [bind];
      [now rewrite Hs | reflexivity].
Qed.

End InventoryErrors.

Lemma get_inventory_errors_witness :
  success (fst (always_answering ok_response 0%nat)) ok_response /\
  body ok_response = Some (JObject []) /\
  run_result
    (get_inventory (fun _ _ _ => always_answering ok_response) market_730
       76561197960287930 None 0%nat) = Raise InvalidInventoryException.
Proof.
  assert (Hok : success (fst (always_answering ok_response 0%nat))
                        ok_response)
    by (split; [reflexivity | cbn; lia]).
  split; [exact Hok|]. split; [reflexivity|].
  apply (proj2 (proj2 (proj2
           (get_inventory_errors nat
              (fun _ _ _ => always_answering ok_response) market_730
              76561197960287930 None 0%nat)))
           ok_response [] Hok eq_refl I).
Defined.


(** ** The rows of a market listing *)

Section ListItemsFacts.

Variable unquote_decode : pystr -> outcome pystr.

(** X19.  [_get_original_name] decodes what stands between the last slash
    of the link and the first question mark after that slash (the rest of
    the link when no question mark follows).  The last slash counts even
    inside a query string, and then the item name is lost. *)
Theorem get_original_name_segment (pre rest : pystr) :
  ~ In slash rest ->
  (forall name q,
      rest = name ++ question_mark :: q -> ~ In question_mark name ->
      _get_original_name unquote_decode (Some (pre ++ slash :: rest)) =
      unquote_decode name) /\
  (~ In question_mark rest ->
   _get_original_name unquote_decode (Some (pre ++ slash :: rest)) =
   unquote_decode rest).
Proof.
  intros Hrest. unfold _get_original_name.
  change (u "/") with [slash]. change (u "?") with [question_mark].
  rewrite (last_piece_split_char slash pre rest Hrest). split.
  - intros name q -> Hname. now rewrite splitn_char_cut.
  - intros Hq. now rewrite splitn_char_absent.
Qed.

Lemma slice_to_length {A} (count : Z) (l : list A) :
  List.length (slice_to count l) =
  if (count <? 0)%Z
  then (List.length l - Z.to_nat (- count))%nat
  else Nat.min (Z.to_nat count) (List.length l).
Proof.
  unfold slice_to. destruct (count <? 0)%Z; rewrite length_firstn; lia.
Qed.

Lemma list_items_loop_inv (links : list (option pystr))
    (items : list listed_item) :
  list_items_loop unquote_decode links = Return items ->
  map item_url items = links /\
  Forall (fun i => item_url i <> None /\
                   _get_original_name unquote_decode (item_url i) =
                   Return (item_orig_name i)) items.
Proof.
  revert items; induction links as [|href links IH]; intros items.
  - intros [= <-]. split; [reflexivity | constructor].
  - cbn [list_items_loop].
    destruct (_get_original_name unquote_decode href) as [name|e] eqn:En;
      cbn [bind]; [|discriminate].
    destruct (list_items_loop unquote_decode links) as [rest|e] eqn:El;
      cbn [bind]; [|discriminate].
    intros [= <-]. destruct (IH rest eq_refl) as [Hm Hall].
    split; [cbn; now rewrite Hm|].
    constructor; [|exact Hall]. cbn [item_url item_orig_name].
    split; [|exact En]. intros ->. discriminate.
Qed.

(** X20.  When [list_items] returns, its items are the first [count]
    links of the listing, in order (all of them when there are fewer; all
    but the last [-count] for a negative [count]); every item has a
    [url], and its [orig_name] is what [_get_original_name] makes of that
    [url]. *)
Theorem list_items_links_returned (count : Z)
    (hrefs : list (option pystr)) (items : list listed_item) :
  list_items_links unquote_decode count hrefs = Return items ->
  map item_url items = slice_to count hrefs /\
  Forall (fun i => item_url i <> None /\
                   _get_original_name unquote_decode (item_url i) =
                   Return (item_orig_name i)) items /\
  ((0 <= count)%Z ->
   List.length items = Nat.min (Z.to_nat count) (List.length hrefs) /\
   map item_url items = firstn (Z.to_nat count) hrefs) /\
  ((count < 0)%Z ->
   List.length items = (List.length hrefs - Z.to_nat (- count))%nat).
Proof.
  unfold list_items_links. intros H.
  apply list_items_loop_inv in H as [Hm Hall].
  split; [exact Hm|]. split; [exact Hall|].
  assert (Hlen : List.length items = List.length (slice_to count hrefs))
    by (rewrite <- Hm; now rewrite length_map).
  rewrite slice_to_length in Hlen. split.
  - intros Hc. rewrite Hm. unfold slice_to.
    destruct (Z.ltb_spec count 0); [lia|]. now split.
  - intros Hc. destruct (Z.ltb_spec count 0); [exact Hlen | lia].
Qed.

(** X21.  A link without [href] among those the slice keeps makes
    [list_items] raise: no list is returned, not even the items before
    it. *)
Theorem list_items_links_missing_href (count : Z)
    (hrefs : list (option pystr)) :
  In None (slice_to count hrefs) ->
  exists e, list_items_links unquote_decode count hrefs = Raise e.
Proof.
  unfold list_items_links. generalize (slice_to count hrefs) as links.
  induction links as [|href links IH]; intros Hin; [destruct Hin|].
  cbn [list_items_loop]. destruct Hin as [->|Hin].
  - exists AttributeError. reflexivity.
  - destruct (_get_original_name unquote_decode href) as [name|e];
      cbn [bind]; [|now exists e].
    destruct (IH Hin) as (e & ->). now exists e.
Qed.

End ListItemsFacts.

Lemma get_original_name_segment_witness :
  _get_original_name no_decoding
    (Some (u "http://steamcommunity.com/market/listings/730/AK-47?filter=x"))
  = Return (u "AK-47").
Proof.
  apply (proj1 (get_original_name_segment no_decoding
                  (u "http://steamcommunity.com/market/listings/730")
                  (u "AK-47?filter=x")
                  (not_in_literal slash (u "AK-47?filter=x") eq_refl))
               (u "AK-47") (u "filter=x") eq_refl
               (not_in_literal question_mark (u "AK-47") eq_refl)).
Defined.

Lemma list_items_links_returned_witness :
  exists items,
    list_items_links no_decoding 2
      [Some (u "/listings/730/A"); Some (u "/listings/730/B?x=1");
       Some (u "/listings/730/C")] = Return items /\
    map item_url items =
      [Some (u "/listings/730/A"); Some (u "/listings/730/B?x=1")] /\
    List.length items = 2%nat.
Proof.
  pose (items := [mkListedItem (Some (u "/listings/730/A")) (u "A");
                  mkListedItem (Some (u "/listings/730/B?x=1")) (u "B")]).
  assert (Hrun : list_items_links no_decoding 2
            [Some (u "/listings/730/A"); Some (u "/listings/730/B?x=1");
             Some (u "/listings/730/C")] = Return items) by reflexivity.
  destruct (list_items_links_returned no_decoding 2 _ items Hrun)
    as (_ & _ & Hpos & _).
  destruct (Hpos ltac:(lia)) as [Hlen Hmap].
  exists items. split; [exact Hrun|]. split; [exact Hmap | exact Hlen].
Defined.

Lemma list_items_links_missing_href_witness :
  In None (slice_to 10 [Some (u "/listings/730/A"); None]) /\
  exists e,
    list_items_links no_decoding 10 [Some (u "/listings/730/A"); None] =
    Raise e.
Proof.
  assert (Hin : In None (slice_to 10 [Some (u "/listings/730/A"); None]))
    by (right; left; reflexivity).
  split; [exact Hin|].
  exact (list_items_links_missing_href no_decoding 10
           [Some (u "/listings/730/A"); None] Hin).
Defined.
